(** * zizou_games: the real-time session coordinator of the tic-tac-toe client

    A shallow embedding of
      - [services/websocket.ts]   (class [GameWebSocket]),
      - [stores/game.ts]          (the Pinia store [useGameStore]; its text
                                   follows the one of [views/SignupView.vue]),
      - [components/TicTacToeBoard.vue] ([handleCellClick]),
      - [views/GameView.vue]      ([initializeGame], the retry interval, the watcher),
    followed by the properties of the coordinator.

    Conventions of the embedding.
      - Every reactive [ref] of the store and of the view is a field of a record;
        an assignment [r.value = v] is a functional update of that field.
      - An [async] function is a function of the replies of the operations it
        awaits (the reply of a [fetch], the way a [connect()] promise settles):
        the replies are arguments, the code between two awaits runs to
        completion, as on the single JavaScript thread.
      - Exceptions are values of [Exn]; [try]/[catch]/[finally] are combinators
        of the monad [M].
      - Everything the code does to the outside (opening a socket, sending a
        frame, a [fetch], starting a timer) is appended to a log of [Effect]s.
        Writes to the console are not logged. *)

From Stdlib Require Import ZArith Lia Ascii.
From stdpp Require Import base option list strings pretty gmap.

Open Scope string_scope.
Open Scope list_scope.

(** ** Data of the protocol ([services/api.ts], [services/websocket.ts]) *)

(** ['X' | 'O'] *)
Inductive Symbol := X | O.

(** ['X' | 'O' | 'DRAW'], the non-null values of [winner] *)
Inductive Winner := WinX | WinO | DRAW.

(** [('X' | 'O' | null)[][]] *)
Definition Cell := option Symbol.
Definition Board := list (list Cell).

#[global] Instance Symbol_eq_dec : EqDecision Symbol.
Proof. solve_decision. Defined.
#[global] Instance Winner_eq_dec : EqDecision Winner.
Proof. solve_decision. Defined.

(** [interface Game].  The status travels as a JSON string; the push message
    [move_made] declares it as [string] and the store casts it, so statuses are
    kept as strings and compared with the literals the code compares with. *)
Record Game := mkGame {
  id : string;
  player_x_id : option string;
  player_o_id : option string;
  status : string;
  created_at : string
}.

(** [interface MoveResponse] *)
Record MoveResponse := mkMoveResponse {
  mr_message : string;
  mr_move_id : string;
  mr_position : string;
  mr_symbol : Symbol;
  mr_board : Board;
  mr_winner : option Winner;
  mr_game_status : string;
  mr_next_turn : option Symbol
}.

(** The reply of [api.getBoard] *)
Record BoardData := mkBoardData {
  bd_board : Board;
  bd_winner : option Winner
}.

(** [type WebSocketMessage] *)
Inductive WebSocketMessage :=
| create_room (room_id : string)
| join_room (room_id : string)
| room_created (room_id : string) (players : Z)
| room_joined (room_id : string) (players : Z)
| player_joined (room_id : string) (players : Z)
| game_started (game_id : string) (status : string)
| move_made (game_id player_id position : string) (symbol : Symbol)
            (board : Board) (winner : option Winner) (game_status : string).

(** [message.type] *)
Definition type (m : WebSocketMessage) : string :=
  match m with
  | create_room _ => "create_room"
  | join_room _ => "join_room"
  | room_created _ _ => "room_created"
  | room_joined _ _ => "room_joined"
  | player_joined _ _ => "player_joined"
  | game_started _ _ => "game_started"
  | move_made _ _ _ _ _ _ _ => "move_made"
  end.

(** The requests of [services/api.ts] *)
Inductive ApiRequest :=
| api_createGame (playerXId : string)
| api_joinGame (gameId playerOId : string)
| api_getGame (gameId : string)
| api_getBoard (gameId : string)
| api_makeMove (gameId playerId position : string).

(** What the program does to the outside world. *)
Inductive Effect :=
| NewWebSocket                          (* new WebSocket(this.url) *)
| SocketSend (m : WebSocketMessage)     (* this.ws.send(JSON.stringify(m)) *)
| SocketClose                           (* this.ws.close() *)
| SetTimeout (delay : nat)              (* setTimeout(reconnect, delay) *)
| SetInterval (period : nat)            (* window.setInterval(tick, period) *)
| ClearInterval (handle : positive)         (* clearInterval(handle) *)
| Fetch (r : ApiRequest)                (* a request of services/api.ts *)
| Alert (text : string).                (* alert(text) *)

(** What is thrown: [new Error(message)], a [TypeError] of the runtime, or the
    error event a [connect()] promise rejects with. *)
Inductive Exn :=
| Error (message : string)
| TypeError (message : string)
| ErrorEvent.

(** [e.message]; the event has none ([undefined], falsy as the empty string) *)
Definition message (e : Exn) : string :=
  match e with Error m => m | TypeError m => m | ErrorEvent => "" end.

(** The reply of an awaited request: it resolves with a value or rejects. *)
Inductive Reply (A : Type) :=
| Resolved (a : A)
| Rejected (e : Exn).
Arguments Resolved {A} a.
Arguments Rejected {A} e.

(** ** [class GameWebSocket] ([services/websocket.ts]) *)

Module GameWebSocket.

(** [WebSocket.readyState] of the transport held in [this.ws] *)
Inductive ReadyState := CONNECTING | OPEN | CLOSING | CLOSED.

(** The callbacks the store registers, by name: each is a closure over the
    store, defined with the store below. *)
Inductive Listener :=
| on_room_created | on_room_joined | on_player_joined
| on_game_started | on_move_made.

#[global] Instance ReadyState_eq_dec : EqDecision ReadyState.
Proof. solve_decision. Defined.
#[global] Instance Listener_eq_dec : EqDecision Listener.
Proof. solve_decision. Defined.

(** The private fields.  [maxReconnectAttempts] and [reconnectDelay] are
    initialised and never assigned again: they are constants. *)
Record t := mk {
  ws : option ReadyState;                  (* this.ws : WebSocket | null *)
  reconnectAttempts : nat;
  listeners : gmap string (list Listener)  (* Map<string, Set<callback>> *)
}.

Definition maxReconnectAttempts : nat := 5.
Definition reconnectDelay : nat := 1000.

(** [new GameWebSocket()] *)
Definition new : t :=
  {| ws := None; reconnectAttempts := 0; listeners := ∅ |}.

Definition set_ws (v : option ReadyState) (g : t) : t :=
  {| ws := v; reconnectAttempts := reconnectAttempts g; listeners := listeners g |}.
Definition set_reconnectAttempts (n : nat) (g : t) : t :=
  {| ws := ws g; reconnectAttempts := n; listeners := listeners g |}.
Definition set_listeners (l : gmap string (list Listener)) (g : t) : t :=
  {| ws := ws g; reconnectAttempts := reconnectAttempts g; listeners := l |}.

(** [connect()], up to the return of the promise: a transport is created and
    stored in [this.ws]; its four callbacks are the functions below. *)
Definition connect (g : t) : t * list Effect :=
  (set_ws (Some CONNECTING) g, [NewWebSocket]).

(** [this.ws.onopen]: the transport is open, the counter is reset and the
    promise resolves. *)
Definition onopen (g : t) : t :=
  set_reconnectAttempts 0 (set_ws (Some OPEN) g).

(** [this.ws.onerror]: the promise rejects and no field is assigned; the
    transport that failed is in state [CLOSED] when the callback runs. *)
Definition onerror (g : t) : t :=
  set_ws (Some CLOSED) g.

(** [attemptReconnect()]: the delay is computed when [setTimeout] is called,
    that is after the increment. *)
Definition attemptReconnect (g : t) : t * list Effect :=
  if bool_decide (reconnectAttempts g < maxReconnectAttempts) then
    let g' := set_reconnectAttempts (S (reconnectAttempts g)) g in
    (g', [SetTimeout (reconnectDelay * reconnectAttempts g')])
  else (g, []).

(** [this.ws.onclose] *)
Definition onclose (g : t) : t * list Effect :=
  attemptReconnect (set_ws None g).

(** The callback given to [setTimeout] by [attemptReconnect]:
    [this.connect().catch(() => {})]. *)
Definition reconnect_timer (g : t) : t * list Effect :=
  connect g.

(** [isConnected()] *)
Definition isConnected (g : t) : bool :=
  bool_decide (ws g = Some OPEN).

(** [send(message)]: transmits only on an open transport, otherwise logs to
    the console. *)
Definition send (m : WebSocketMessage) (g : t) : list Effect :=
  if bool_decide (ws g = Some OPEN) then [SocketSend m] else [].

(** [Set.add]: insertion order, no duplicate. *)
Definition set_add (cb : Listener) (s : list Listener) : list Listener :=
  if bool_decide (cb ∈ s) then s else s ++ [cb].

(** [on(messageType, callback)] *)
Definition on (messageType : string) (cb : Listener) (g : t) : t :=
  let l := match listeners g !! messageType with
           | Some _ => listeners g
           | None => <[messageType := []]> (listeners g)
           end in
  set_listeners (alter (set_add cb) messageType l) g.

(** [off(messageType, callback)] *)
Definition off (messageType : string) (cb : Listener) (g : t) : t :=
  match listeners g !! messageType with
  | Some _ =>
      set_listeners
        (alter (filter (λ c, c ≠ cb)) messageType (listeners g)) g
  | None => g
  end.

(** [handleMessage(message)]: the callbacks to run, in the order of
    [Set.forEach]. *)
Definition handleMessage (m : WebSocketMessage) (g : t) : list Listener :=
  default [] (listeners g !! type m).

(** [disconnect()] *)
Definition disconnect (g : t) : t * list Effect :=
  let '(g1, eff) := match ws g with
                    | Some _ => (set_ws None g, [SocketClose])
                    | None => (g, [])
                    end in
  (set_listeners ∅ g1, eff).

(** An outage: the transport closes, and every reconnection that is
    scheduled fires and fails in its turn (its transport closes without
    having opened).  [outage n g] follows at most [n] closes. *)
Fixpoint outage (n : nat) (g : t) : t * list Effect :=
  match n with
  | 0 => (g, [])
  | S n' =>
      let '(g1, e1) := onclose g in
      match e1 with
      | [] => (g1, [])
      | _ :: _ =>
          let '(g2, e2) := reconnect_timer g1 in
          let '(g3, e3) := outage n' (onerror g2) in
          (g3, e1 ++ e2 ++ e3)
      end
  end.

(** The delays of the timers started in a log. *)
Definition delays (l : list Effect) : list nat :=
  omap (λ e, match e with SetTimeout d => Some d | _ => None end) l.

(** The sockets opened in a log. *)
Definition sockets_opened (l : list Effect) : nat :=
  length (omap (λ e, match e with NewWebSocket => Some tt | _ => None end) l).

End GameWebSocket.

(** ** The state of the client *)

(** The refs of [stores/game.ts] *)
Module Store.
Record t := mk {
  currentGame : option Game;
  board : Board;
  currentPlayer : option Symbol;
  winner : option Winner;
  gameStatus : string;
  playerXId : string;
  playerOId : string;
  myPlayerId : string;
  mySymbol : option Symbol;
  ws : option GameWebSocket.t;
  isConnected : bool;
  playersInRoom : Z
}.

Definition empty_board : Board :=
  [ [None; None; None]; [None; None; None]; [None; None; None] ].

(** The initial values of the refs *)
Definition initial : t :=
  {| currentGame := None; board := empty_board; currentPlayer := None;
     winner := None; gameStatus := "waiting"; playerXId := "";
     playerOId := ""; myPlayerId := ""; mySymbol := None; ws := None;
     isConnected := false; playersInRoom := 0 |}.

Definition set_currentGame v (s : t) : t :=
  mk v (board s) (currentPlayer s) (winner s) (gameStatus s) (playerXId s)
     (playerOId s) (myPlayerId s) (mySymbol s) (ws s) (isConnected s)
     (playersInRoom s).
Definition set_board v (s : t) : t :=
  mk (currentGame s) v (currentPlayer s) (winner s) (gameStatus s)
     (playerXId s) (playerOId s) (myPlayerId s) (mySymbol s) (ws s)
     (isConnected s) (playersInRoom s).
Definition set_currentPlayer v (s : t) : t :=
  mk (currentGame s) (board s) v (winner s) (gameStatus s) (playerXId s)
     (playerOId s) (myPlayerId s) (mySymbol s) (ws s) (isConnected s)
     (playersInRoom s).
Definition set_winner v (s : t) : t :=
  mk (currentGame s) (board s) (currentPlayer s) v (gameStatus s)
     (playerXId s) (playerOId s) (myPlayerId s) (mySymbol s) (ws s)
     (isConnected s) (playersInRoom s).
Definition set_gameStatus v (s : t) : t :=
  mk (currentGame s) (board s) (currentPlayer s) (winner s) v (playerXId s)
     (playerOId s) (myPlayerId s) (mySymbol s) (ws s) (isConnected s)
     (playersInRoom s).
Definition set_playerXId v (s : t) : t :=
  mk (currentGame s) (board s) (currentPlayer s) (winner s) (gameStatus s) v
     (playerOId s) (myPlayerId s) (mySymbol s) (ws s) (isConnected s)
     (playersInRoom s).
Definition set_playerOId v (s : t) : t :=
  mk (currentGame s) (board s) (currentPlayer s) (winner s) (gameStatus s)
     (playerXId s) v (myPlayerId s) (mySymbol s) (ws s) (isConnected s)
     (playersInRoom s).
Definition set_myPlayerId v (s : t) : t :=
  mk (currentGame s) (board s) (currentPlayer s) (winner s) (gameStatus s)
     (playerXId s) (playerOId s) v (mySymbol s) (ws s) (isConnected s)
     (playersInRoom s).
Definition set_mySymbol v (s : t) : t :=
  mk (currentGame s) (board s) (currentPlayer s) (winner s) (gameStatus s)
     (playerXId s) (playerOId s) (myPlayerId s) v (ws s) (isConnected s)
     (playersInRoom s).
Definition set_ws v (s : t) : t :=
  mk (currentGame s) (board s) (currentPlayer s) (winner s) (gameStatus s)
     (playerXId s) (playerOId s) (myPlayerId s) (mySymbol s) v
     (isConnected s) (playersInRoom s).
Definition set_isConnected v (s : t) : t :=
  mk (currentGame s) (board s) (currentPlayer s) (winner s) (gameStatus s)
     (playerXId s) (playerOId s) (myPlayerId s) (mySymbol s) (ws s) v
     (playersInRoom s).
Definition set_playersInRoom v (s : t) : t :=
  mk (currentGame s) (board s) (currentPlayer s) (winner s) (gameStatus s)
     (playerXId s) (playerOId s) (myPlayerId s) (mySymbol s) (ws s)
     (isConnected s) v.

(** [isMyTurn] *)
Definition isMyTurn (s : t) : bool :=
  match currentPlayer s, mySymbol s with
  | Some c, Some m => bool_decide (c = m)
  | _, _ => false                 (* !currentPlayer.value || !mySymbol.value *)
  end.

(** [canMakeMove]; [!winner.value] holds for [null] only, the three other
    values being non-empty strings. *)
Definition canMakeMove (s : t) : bool :=
  bool_decide (gameStatus s = "ongoing") && isMyTurn s
  && bool_decide (winner s = None).
End Store.

(** The local state of [views/GameView.vue].  [gameId] is the route parameter
    and [userId] is [authStore.userId]; the handle returned by [setInterval] is
    a non-zero integer, hence [positive]. *)
Module View.
Record t := mk {
  gameId : string;
  userId : option string;
  error : option string;
  loading : bool;
  retrying : bool;
  retryInterval : option positive
}.

Definition initial (gameId : string) (userId : option string) : t :=
  {| gameId := gameId; userId := userId; error := None; loading := true;
     retrying := false; retryInterval := None |}.

Definition set_error v (s : t) : t :=
  mk (gameId s) (userId s) v (loading s) (retrying s) (retryInterval s).
Definition set_loading v (s : t) : t :=
  mk (gameId s) (userId s) (error s) v (retrying s) (retryInterval s).
Definition set_retrying v (s : t) : t :=
  mk (gameId s) (userId s) (error s) (loading s) v (retryInterval s).
Definition set_retryInterval v (s : t) : t :=
  mk (gameId s) (userId s) (error s) (loading s) (retrying s) v.
End View.

(** The whole client: the store, the view, the handle the browser gives to the
    next timer, and what was done to the outside so far (oldest first).  Of
    the socket objects the world follows the one the store refers to: an
    object that [connectWebSocket] or [reset] has replaced leaves the world
    (its close is in the log), and what such an object still does, by the
    callbacks of its transport, is stated on [GameWebSocket] itself. *)
Record World := mkWorld {
  store : Store.t;
  view : View.t;
  next_handle : positive;
  log : list Effect
}.

(** ** The monad of actions: state, exceptions, and the log *)

Inductive Result (A : Type) :=
| Return (a : A)
| Throw (e : Exn).
Arguments Return {A} a.
Arguments Throw {A} e.

Definition M (A : Type) : Type := World → Result A * World.

#[global] Instance M_ret : MRet M := λ A a w, (Return a, w).
#[global] Instance M_bind : MBind M := λ A B f m w,
  match m w with
  | (Return a, w') => f a w'
  | (Throw e, w') => (Throw e, w')
  end.

Definition throw {A} (e : Exn) : M A := λ w, (Throw e, w).

(** [try { m } catch (e) { h e }] *)
Definition try_catch {A} (m : M A) (h : Exn → M A) : M A := λ w,
  match m w with
  | (Return a, w') => (Return a, w')
  | (Throw e, w') => h e w'
  end.

(** [try { m } finally { f }], for an [f] that does not throw *)
Definition finally {A} (m : M A) (f : World → World) : M A := λ w,
  let '(r, w') := m w in (r, f w').

Definition get_store : M Store.t := λ w, (Return (store w), w).
Definition get_view : M View.t := λ w, (Return (view w), w).

Definition modify_store (f : Store.t → Store.t) : M unit := λ w,
  (Return tt, mkWorld (f (store w)) (view w) (next_handle w) (log w)).
Definition modify_view (f : View.t → View.t) : M unit := λ w,
  (Return tt, mkWorld (store w) (f (view w)) (next_handle w) (log w)).

Definition emit (l : list Effect) : M unit := λ w,
  (Return tt, mkWorld (store w) (view w) (next_handle w) (log w ++ l)).

(** [window.setInterval(..., period)]: the browser returns a fresh handle. *)
Definition setInterval (period : nat) : M positive := λ w,
  (Return (next_handle w),
   mkWorld (store w) (view w) (Pos.succ (next_handle w))
           (log w ++ [SetInterval period])).

(** [await api.f(...)]: the request goes out, the reply comes back. *)
Definition await_fetch {A} (rq : ApiRequest) (r : Reply A) : M A :=
  emit [Fetch rq];;
  match r with
  | Resolved a => mret a
  | Rejected e => throw e
  end.

Definition when (b : bool) (m : M unit) : M unit :=
  if b then m else mret tt.

(** The final world and the outcome of an action *)
Definition exec {A} (m : M A) (w : World) : World := snd (m w).
Definition outcome {A} (m : M A) (w : World) : Result A := fst (m w).
(** What the action added to the log *)
Definition effects {A} (m : M A) (w : World) : list Effect :=
  drop (length (log w)) (log (exec m w)).

(** JavaScript's [s || d] on strings: the empty string is falsy. *)
Definition or_else (s d : string) : string :=
  if bool_decide (s = "") then d else s.

(** [o || ''] for [o : string | null] *)
Definition or_empty (o : option string) : string := default "" o.

(** The opposite symbol: [symbol === 'X' ? 'O' : 'X'] *)
Definition other (s : Symbol) : Symbol :=
  match s with X => O | O => X end.

(** ** The actions of the store ([stores/game.ts]) *)

Module GameStore.
Import Store.

(** A method call on the object held in [ws.value], mutating it in place. *)
Definition on_ws (f : GameWebSocket.t → GameWebSocket.t * list Effect) : M unit :=
  s ← get_store;
  match ws s with
  | Some g =>
      let '(g', eff) := f g in
      modify_store (set_ws (Some g'));; emit eff
  | None => mret tt
  end.

Definition createGame (playerId : string) (r : Reply Game) : M Game :=
  try_catch
    (game ← await_fetch (api_createGame playerId) r;
     modify_store (set_currentGame (Some game));;
     modify_store (set_playerXId (or_empty (player_x_id game)));;
     modify_store (set_myPlayerId playerId);;
     modify_store (set_mySymbol (Some X));;
     modify_store (set_gameStatus (status game));;
     mret game)
    (λ error, throw error).

Definition joinGame (gameId playerId : string) (r : Reply Game) : M Game :=
  try_catch
    (game ← await_fetch (api_joinGame gameId playerId) r;
     modify_store (set_currentGame (Some game));;
     modify_store (set_playerXId (or_empty (player_x_id game)));;
     modify_store (set_playerOId (or_empty (player_o_id game)));;
     modify_store (set_myPlayerId playerId);;
     modify_store (set_mySymbol (Some O));;
     modify_store (set_gameStatus (status game));;
     mret game)
    (λ error, throw error).

(** [userId] is [string | undefined]; [if (userId)] also fails on [''] *)
Definition loadGame (gameId : string) (userId : option string)
    (rGame : Reply Game) (rBoard : Reply BoardData) : M Game :=
  try_catch
    (game ← await_fetch (api_getGame gameId) rGame;
     modify_store (set_currentGame (Some game));;
     modify_store (set_playerXId (or_empty (player_x_id game)));;
     modify_store (set_playerOId (or_empty (player_o_id game)));;
     modify_store (set_gameStatus (status game));;
     match userId with
     | Some u =>
         when (negb (bool_decide (u = "")))
           (modify_store (set_myPlayerId u);;
            if bool_decide (player_x_id game = Some u) then
              modify_store (set_mySymbol (Some X))
            else if bool_decide (player_o_id game = Some u) then
              modify_store (set_mySymbol (Some O))
            else mret tt)
     | None => mret tt
     end;;
     boardData ← await_fetch (api_getBoard gameId) rBoard;
     modify_store (set_board (bd_board boardData));;
     modify_store (set_winner (bd_winner boardData));;
     mret game)
    (λ error, throw error).

(** The five closures given to [ws.value.on] by [connectWebSocket] *)
Definition run_listener (l : GameWebSocket.Listener) (m : WebSocketMessage)
    : M unit :=
  match l, m with
  | GameWebSocket.on_room_created, room_created _ players =>
      modify_store (set_playersInRoom players);;
      modify_store (set_isConnected true)
  | GameWebSocket.on_room_joined, room_joined _ players =>
      modify_store (set_playersInRoom players);;
      modify_store (set_isConnected true)
  | GameWebSocket.on_player_joined, player_joined _ players =>
      modify_store (set_playersInRoom players)
  | GameWebSocket.on_game_started, game_started _ _ =>
      modify_store (set_gameStatus "ongoing");;
      modify_store (set_currentPlayer (Some X))
  | GameWebSocket.on_move_made, move_made _ _ _ symbol b w game_status =>
      modify_store (set_board b);;
      modify_store (set_winner w);;
      modify_store (set_gameStatus game_status);;
      modify_store (set_currentPlayer (Some (other symbol)))
  | _, _ => mret tt                 (* message.type is another tag *)
  end.

(** [connectWebSocket()], up to the promise it returns *)
Definition connectWebSocket : M unit :=
  on_ws GameWebSocket.disconnect;;
  modify_store (set_ws (Some GameWebSocket.new));;
  modify_store (set_isConnected false);;
  on_ws (λ g, (GameWebSocket.on "room_created" GameWebSocket.on_room_created g, []));;
  on_ws (λ g, (GameWebSocket.on "room_joined" GameWebSocket.on_room_joined g, []));;
  on_ws (λ g, (GameWebSocket.on "player_joined" GameWebSocket.on_player_joined g, []));;
  on_ws (λ g, (GameWebSocket.on "game_started" GameWebSocket.on_game_started g, []));;
  on_ws (λ g, (GameWebSocket.on "move_made" GameWebSocket.on_move_made g, []));;
  on_ws GameWebSocket.connect.

(** How the promise of [connect()] settles: [onopen] resolves it, [onerror]
    rejects it with the error event, which has no [message]. *)
Inductive Settles := Opens | Fails.

Definition await_connect (o : Settles) : M unit :=
  match o with
  | Opens => on_ws (λ g, (GameWebSocket.onopen g, []))
  | Fails => on_ws (λ g, (GameWebSocket.onerror g, []));; throw ErrorEvent
  end.

(** [this.ws.onmessage] of the transport of [ws.value]: a frame that does
    not parse ([None]) is dropped; the others go to the listeners of their
    tag. *)
Definition onmessage (frame : option WebSocketMessage) : M unit :=
  match frame with
  | Some m =>
      s ← get_store;
      match ws s with
      | Some g =>
          foldr (λ l k, run_listener l m;; k) (mret tt)
                (GameWebSocket.handleMessage m g)
      | None => mret tt
      end
  | None => mret tt
  end.

(** [this.ws.onclose] of the transport of [ws.value] *)
Definition onclose : M unit := on_ws GameWebSocket.onclose.

(** The reconnection timer of [ws.value] fires, and its promise settles;
    the rejection is swallowed by [.catch(() => {})]. *)
Definition reconnect (o : Settles) : M unit :=
  on_ws GameWebSocket.reconnect_timer;;
  try_catch (await_connect o) (λ _, mret tt).

Definition send_if_connected (m : WebSocketMessage) : M unit :=
  s ← get_store;
  match ws s with
  | Some g =>
      when (GameWebSocket.isConnected g) (emit (GameWebSocket.send m g))
  | None => mret tt
  end.

Definition createRoom (gameId : string) : M unit :=
  send_if_connected (create_room gameId).

Definition joinRoom (gameId : string) : M unit :=
  send_if_connected (join_room gameId).

(** The part of [makeMove] after [await api.makeMove(...)] *)
Definition makeMove_settle (r : Reply MoveResponse) : M MoveResponse :=
  match r with
  | Resolved response =>
      modify_store (set_board (mr_board response));;
      modify_store (set_winner (mr_winner response));;
      modify_store (set_gameStatus (mr_game_status response));;
      modify_store (set_currentPlayer (mr_next_turn response));;
      mret response
  | Rejected error => throw error   (* catch: console.error; throw error *)
  end.

(** [makeMove(row, col)]; the position is [`${row},${col}`].  [row] and [col]
    are the indices the board passes, naturals; the template string prints a
    natural that a [number] holds exactly as its decimal digits, which is
    what [pretty] does. *)
Definition makeMove (row col : nat) (r : Reply MoveResponse) : M MoveResponse :=
  s ← get_store;
  match currentGame s with
  | Some game =>
      if bool_decide (myPlayerId s = "") then
        throw (Error "No active game or player ID")
      else if negb (canMakeMove s) then
        throw (Error "It is not your turn")
      else
        let position := pretty row +:+ "," +:+ pretty col in
        emit [Fetch (api_makeMove (id game) (myPlayerId s) position)];;
        makeMove_settle r
  | None => throw (Error "No active game or player ID")
  end.

Definition reset : M unit :=
  modify_store (set_currentGame None);;
  modify_store (set_board empty_board);;
  modify_store (set_currentPlayer None);;
  modify_store (set_winner None);;
  modify_store (set_gameStatus "waiting");;
  modify_store (set_playerXId "");;
  modify_store (set_playerOId "");;
  modify_store (set_myPlayerId "");;
  modify_store (set_mySymbol None);;
  modify_store (set_playersInRoom 0);;
  s ← get_store;
  match ws s with
  | Some _ =>
      on_ws GameWebSocket.disconnect;;
      modify_store (set_ws None)
  | None => mret tt
  end;;
  modify_store (set_isConnected false).
End GameStore.

(** ** [components/TicTacToeBoard.vue] *)

Module TicTacToeBoard.
Import Store.

(** [handleCellClick(row, col)].  [board[row][col]] is evaluated only when
    [canMakeMove] holds; a missing row makes the second index throw, a
    missing column gives [undefined], which is [!== null]. *)
Definition handleCellClick (row col : nat) (r : Reply MoveResponse) : M unit :=
  s ← get_store;
  if negb (canMakeMove s) then mret tt
  else
    match board s !! row with
    | None => throw (TypeError "Cannot read properties of undefined")
    | Some cells =>
        match cells !! col with
        | Some None =>
            try_catch
              (GameStore.makeMove row col r;; mret tt)
              (λ error,
                 emit [Alert (or_else (message error) "Failed to make move")])
        | _ => mret tt
        end
    end.
End TicTacToeBoard.

(** ** [views/GameView.vue] *)

Module GameView.
Import Store View.

(** [x || undefined] *)
Definition or_undefined (o : option string) : option string :=
  match o with
  | Some s => if bool_decide (s = "") then None else Some s
  | None => None
  end.

(** [initializeGame].  In the last branch the source reads
<<
      gameStore.mySymbol = 'X'
      (gameStore as any).createRoom(gameId)
>>
    with no semicolon: the second line opens with a parenthesis, so the two
    lines are one statement, [gameStore.mySymbol = 'X'(gameStore).createRoom(gameId)],
    and calling the string throws a [TypeError] before anything is assigned
    or sent.  The same holds for ['O'] and [joinRoom]. *)
Definition initializeGame (rGame : Reply Game) (rBoard : Reply BoardData)
    (o : GameStore.Settles) : M unit :=
  finally
    (try_catch
       (modify_view (set_loading true);;
        modify_view (set_error None);;
        v ← get_view;
        GameStore.loadGame (gameId v) (or_undefined (userId v)) rGame rBoard;;
        GameStore.connectWebSocket;;
        GameStore.await_connect o;;
        s ← get_store;
        match mySymbol s with
        | Some X => GameStore.createRoom (gameId v)
        | Some O => GameStore.joinRoom (gameId v)
        | None =>
            if bool_decide (playerXId s = myPlayerId s) then
              throw (TypeError "string is not a function")
            else if bool_decide (playerOId s = myPlayerId s) then
              throw (TypeError "string is not a function")
            else mret tt
        end)
       (λ err,
          modify_view
            (set_error (Some (or_else (message err) "Failed to initialize game")))))
    (λ w, exec (modify_view (set_loading false)) w).

Definition stopRetrying : M unit :=
  v ← get_view;
  match retryInterval v with
  | Some h =>
      emit [ClearInterval h];;
      modify_view (set_retryInterval None);;
      modify_view (set_retrying false)
  | None => mret tt
  end.

(** The room command of the local symbol, as the interval and the manual
    retry issue it: [if (gameId) { if X createRoom else if O joinRoom }] *)
Definition room_command : M unit :=
  v ← get_view;
  s ← get_store;
  when (negb (bool_decide (gameId v = "")))
    (match mySymbol s with
     | Some X => GameStore.createRoom (gameId v)
     | Some O => GameStore.joinRoom (gameId v)
     | None => mret tt
     end).

(** The callback of the interval *)
Definition tick (o : GameStore.Settles) : M unit :=
  s ← get_store;
  when (negb (isConnected s))
    (try_catch
       (GameStore.connectWebSocket;; GameStore.await_connect o)
       (λ _, mret tt));;
  s ← get_store;
  when (isConnected s)
    (room_command;;
     when (bool_decide (2 ≤ playersInRoom s)%Z) stopRetrying).

Definition startRetrying : M unit :=
  v ← get_view;
  match retryInterval v with
  | Some _ => mret tt
  | None =>
      modify_view (set_retrying true);;
      h ← setInterval 3000;
      modify_view (set_retryInterval (Some h))
  end.

(** [retryConnection].  The store does not return its [ws] ref, so
    [(gameStore as any).ws] is [undefined] and the first statement does
    nothing; [connectWebSocket] disconnects the old socket itself (were the
    ref visible, the socket would be disconnected here and found without a
    transport and without listeners there: the same closes, the same state). *)
Definition retryConnection (o : GameStore.Settles) : M unit :=
  modify_view (set_error None);;
  modify_view (set_retrying true);;
  finally
    (try_catch
       (GameStore.connectWebSocket;;
        GameStore.await_connect o;;
        room_command)
       (λ err,
          modify_view
            (set_error (Some (or_else (message err) "Failed to retry connection")))))
    (λ w, exec (modify_view (set_retrying false)) w).

(** [onUnmounted]; [(gameStore as any).ws] is [undefined] here too. *)
Definition onUnmounted : M unit := stopRetrying.

(** The source of the watcher, [[isConnected, playersInRoom]] *)
Definition watched (w : World) : bool * Z :=
  (isConnected (store w), playersInRoom (store w)).

(** The callback of the watcher *)
Definition watch_callback (new : bool * Z) : M unit :=
  let '(connected, players) := new in
  if negb connected || bool_decide (players < 2)%Z then startRetrying
  else stopRetrying.

(** Code that runs under the watcher up to the point where it yields.
    [watch] is lazy (no [immediate]): the write of a watched ref that changes
    its value queues the job of the watcher, and the job runs, with the
    values the two refs have then, as soon as the code that wrote yields. *)
Definition with_watch (m : M unit) : M unit := λ w,
  let '(r, w') := m w in
  if bool_decide (watched w' = watched w) then (r, w')
  else (r, exec (watch_callback (watched w')) w').

(** [initializeGame] and [retryConnection], with [connect] for their call of
    [gameStore.connectWebSocket()]: with the call itself they are the two
    functions above; in the mounted view the call runs under the watcher. *)
Definition initializeGame_with (connect : M unit) (rGame : Reply Game)
    (rBoard : Reply BoardData) (o : GameStore.Settles) : M unit :=
  finally
    (try_catch
       (modify_view (set_loading true);;
        modify_view (set_error None);;
        v ← get_view;
        GameStore.loadGame (gameId v) (or_undefined (userId v)) rGame rBoard;;
        connect;;
        GameStore.await_connect o;;
        s ← get_store;
        match mySymbol s with
        | Some X => GameStore.createRoom (gameId v)
        | Some O => GameStore.joinRoom (gameId v)
        | None =>
            if bool_decide (playerXId s = myPlayerId s) then
              throw (TypeError "string is not a function")
            else if bool_decide (playerOId s = myPlayerId s) then
              throw (TypeError "string is not a function")
            else mret tt
        end)
       (λ err,
          modify_view
            (set_error (Some (or_else (message err) "Failed to initialize game")))))
    (λ w, exec (modify_view (set_loading false)) w).

Definition retryConnection_with (connect : M unit) (o : GameStore.Settles)
    : M unit :=
  modify_view (set_error None);;
  modify_view (set_retrying true);;
  finally
    (try_catch
       (connect;;
        GameStore.await_connect o;;
        room_command)
       (λ err,
          modify_view
            (set_error (Some (or_else (message err) "Failed to retry connection")))))
    (λ w, exec (modify_view (set_retrying false)) w).

(** What can happen to a mounted view *)
Inductive Event :=
| Mounted (rGame : Reply Game) (rBoard : Reply BoardData)
          (o : GameStore.Settles)               (* onMounted *)
| Frame (frame : option WebSocketMessage)       (* a frame arrives *)
| Closed                                        (* the transport closes *)
| ReconnectTimer (o : GameStore.Settles)        (* the backoff timer fires *)
| IntervalTick (o : GameStore.Settles)          (* the retry interval fires *)
| RetryClicked (o : GameStore.Settles)          (* the retry button *)
| CellClicked (row col : nat) (r : Reply MoveResponse).

Definition handler (e : Event) : M unit :=
  match e with
  | Mounted rGame rBoard o => initializeGame rGame rBoard o
  | Frame f => GameStore.onmessage f
  | Closed => GameStore.onclose
  | ReconnectTimer o => GameStore.reconnect o
  | IntervalTick o =>
      v ← get_view;
      match retryInterval v with
      | Some _ => tick o
      | None => mret tt                (* no interval, no tick *)
      end
  | RetryClicked o => retryConnection o
  | CellClicked row col r => TicTacToeBoard.handleCellClick row col r
  end.

(** The handler of an event in the mounted view, with the job of the
    watcher where Vue runs it.  A handler that does not await yields when it
    returns.  [initializeGame] and [retryConnection] yield at
    [await gameStore.connectWebSocket()]: the call has written [isConnected]
    and returned a promise that settles on a later event of the transport,
    so the job runs before the rest of the function, and before its
    [finally].  Nothing else in the two functions writes a watched ref.  The
    tick calls [connectWebSocket] only when [isConnected] is false, which
    then changes nothing, and the other handlers that await write no watched
    ref. *)
Definition mounted (e : Event) : M unit :=
  match e with
  | Mounted rGame rBoard o =>
      initializeGame_with (with_watch GameStore.connectWebSocket) rGame rBoard o
  | RetryClicked o =>
      retryConnection_with (with_watch GameStore.connectWebSocket) o
  | _ => with_watch (handler e)
  end.

Definition step (e : Event) (w : World) : World :=
  exec (mounted e) w.

(** The supervisor is running *)
Definition active (w : World) : bool :=
  bool_decide (is_Some (retryInterval (view w))).

(** It should be running: [!connected || players < 2] *)
Definition wanted (w : World) : bool :=
  negb (isConnected (store w)) || bool_decide (playersInRoom (store w) < 2)%Z.

(** The world when the view is set up, over any state of the store *)
Definition setup (s : Store.t) (gameId : string) (userId : option string)
    : World :=
  mkWorld s (View.initial gameId userId) 1%positive [].
End GameView.

(** ** Notions used by the properties *)

(** The data model of the specification, for comparison with the store:
    [isLocalTurn() = (TurnState.current == localSymbol)] and
    [canSubmitMove() = Status==Ongoing ∧ isLocalTurn() ∧ Outcome==None]. *)
Definition spec_isLocalTurn (s : Store.t) : bool :=
  bool_decide (Store.currentPlayer s = Store.mySymbol s).

Definition spec_canSubmitMove (s : Store.t) : bool :=
  bool_decide (Store.gameStatus s = "ongoing") && spec_isLocalTurn s
  && bool_decide (Store.winner s = None).

(** The room commands sent in a log *)
Definition room_commands (l : list Effect) : list WebSocketMessage :=
  omap (λ e, match e with
             | SocketSend (create_room r) => Some (create_room r)
             | SocketSend (join_room r) => Some (join_room r)
             | _ => None
             end) l.

(** The requests sent in a log *)
Definition requests (l : list Effect) : list ApiRequest :=
  omap (λ e, match e with Fetch r => Some r | _ => None end) l.

(** The room command of a symbol *)
Definition command_of (s : Symbol) (gameId : string) : WebSocketMessage :=
  match s with X => create_room gameId | O => join_room gameId end.

(** [board[row][col]] holds a symbol *)
Definition occupied (b : Board) (row col : nat) : Prop :=
  ∃ cells c, b !! row = Some cells ∧ cells !! col = Some (Some c).

(** The gate as the specification words it, for the store's [makeMove]:
    no turn, or an occupied cell, is an error and no request. *)
Definition spec_attemptMove (row col : nat) (r : Reply MoveResponse)
    (w : World) : Prop :=
  Store.canMakeMove (store w) = false ∨ occupied (Store.board (store w)) row col →
  (∃ m, outcome (GameStore.makeMove row col r) w = Throw (Error m)) ∧
  requests (effects (GameStore.makeMove row col r) w) = [].

(** An action leaves an observation of the world as it was. *)
Definition preserves {A B} (f : World → B) (m : M A) : Prop :=
  ∀ w, f (exec m w) = f w.

(** The moves a client accepts: those pushed by [move_made] and its own
    submissions that the authority accepted. *)
Inductive Accepted :=
| Pushed (symbol : Symbol) (b : Board) (w : option Winner) (game_status : string)
| Submitted (row col : nat) (response : MoveResponse).

(** The client plays a sequence of accepted moves; the result is the symbols
    that moved, or [None] when a submission is not accepted.  A submission is
    a move of the local symbol. *)
Fixpoint play (moves : list Accepted) (w : World) : option (list Symbol) :=
  match moves with
  | [] => Some []
  | Pushed sym b wn gs :: rest =>
      let m := move_made "" "" "" sym b wn gs in
      cons sym <$>
        play rest (exec (GameStore.run_listener GameWebSocket.on_move_made m) w)
  | Submitted row col response :: rest =>
      match outcome (GameStore.makeMove row col (Resolved response)) w,
            Store.mySymbol (store w) with
      | Return _, Some me =>
          cons me <$>
            play rest (exec (GameStore.makeMove row col (Resolved response)) w)
      | _, _ => None
      end
  end.

(** The symbols alternate, starting with [s]. *)
Fixpoint alternates_from (s : Symbol) (l : list Symbol) : bool :=
  match l with
  | [] => true
  | m :: rest => bool_decide (m = s) && alternates_from (other s) rest
  end.

(** The authority is consistent when [t] is to move: it pushes moves of the
    symbol to move, and its replies name the opposite symbol as the next. *)
Fixpoint consistent_from (t : Symbol) (moves : list Accepted) : bool :=
  match moves with
  | [] => true
  | Pushed sym _ _ _ :: rest =>
      bool_decide (sym = t) && consistent_from (other t) rest
  | Submitted _ _ response :: rest =>
      bool_decide (mr_next_turn response = Some (other t))
      && consistent_from (other t) rest
  end.

(** *** Examples *)

Module Examples.
Definition game : Game := mkGame "g7" (Some "alice") (Some "bob") "ongoing" "".

Definition board_X00 : Board :=
  [ [Some X; None; None]; [None; None; None]; [None; None; None] ].

(** Alice plays X in an ongoing game; X is to move and holds the corner. *)
Definition alice : Store.t :=
  Store.mk (Some game) board_X00 (Some X) None "ongoing" "alice" "bob"
           "alice" (Some X) None false 0.

Definition alice_world : World :=
  mkWorld alice (View.initial "g7" (Some "alice")) 1%positive [].

(** Bob plays O in the same game and waits for X. *)
Definition bob : Store.t :=
  Store.mk (Some game) board_X00 (Some X) None "ongoing" "alice" "bob"
           "bob" (Some O) None false 0.

Definition bob_world : World :=
  mkWorld bob (View.initial "g7" (Some "bob")) 1%positive [].

(** A game that is going on, loaded by somebody who is not a player and
    before any push: no turn is known and no symbol is assigned. *)
Definition spectator : Store.t :=
  Store.set_gameStatus "ongoing" Store.initial.

(** A reply of the authority that keeps X to move *)
Definition reply_X_again : MoveResponse :=
  mkMoveResponse "Move made" "m1" "0,1" X
    [ [Some X; Some X; None]; [None; None; None]; [None; None; None] ]
    None "ongoing" (Some X).

(** A reply of the authority that passes the turn to O *)
Definition reply_O_next : MoveResponse :=
  mkMoveResponse "Move made" "m1" "0,1" X
    [ [Some X; Some X; None]; [None; None; None]; [None; None; None] ]
    None "ongoing" (Some O).

(** A reply of the authority to the move that wins the top row: the game is
    finished and nobody is to move *)
Definition reply_X_wins : MoveResponse :=
  mkMoveResponse "Move made" "m3" "0,2" X
    [ [Some X; Some X; Some X]; [Some O; Some O; None]; [None; None; None] ]
    (Some WinX) "finished" None.

(** Alice's socket, registered and open, after the handshake *)
Definition alice_connected : World :=
  exec (GameStore.run_listener GameWebSocket.on_room_created
          (room_created "g7" 2))
    (exec (GameStore.connectWebSocket;;
           GameStore.await_connect GameStore.Opens) alice_world).

(** The same after the transport closed: a reconnection is pending. *)
Definition alice_closed : World := exec GameStore.onclose alice_connected.

(** The view is mounted on a fresh store, the game loads, and the socket
    fails to open. *)
Definition never_connected : World :=
  GameView.step
    (GameView.Mounted (Resolved game) (Resolved (mkBoardData board_X00 None))
                      GameStore.Fails)
    (GameView.setup Store.initial "g7" (Some "alice")).

(** Alice is alone in the room: the server confirmed the room with one
    player, and the watcher saw it. *)
Definition alice_alone : World :=
  GameView.step (GameView.Frame (Some (room_created "g7" 1)))
    (exec (GameStore.connectWebSocket;;
           GameStore.await_connect GameStore.Opens) alice_world).

End Examples.

(** An event that brings no frame that parses: everything but a push of the
    server or an echo *)
Definition no_push (e : GameView.Event) : bool :=
  match e with
  | GameView.Frame (Some _) => false
  | _ => true
  end.

(** Observations of the store, and of the view *)
Definition of_store {B} (φ : Store.t → B) : World → B := λ w, φ (store w).
Definition of_view {B} (ψ : View.t → B) : World → B := λ w, ψ (view w).

(** ** The life of a socket object *)

Module SocketLife.
Import GameWebSocket.

(** What can be called on a [GameWebSocket]: its methods, the callbacks of
    its transport, and the callback of its reconnection timer. *)
Inductive Call :=
| call_connect
| call_onopen
| call_onerror
| call_onclose
| call_timer
| call_on (messageType : string) (cb : Listener)
| call_off (messageType : string) (cb : Listener)
| call_send (m : WebSocketMessage)
| call_disconnect.

Definition call (c : Call) (g : t) : t * list Effect :=
  match c with
  | call_connect => connect g
  | call_onopen => (onopen g, [])
  | call_onerror => (onerror g, [])
  | call_onclose => onclose g
  | call_timer => reconnect_timer g
  | call_on messageType cb => (on messageType cb g, [])
  | call_off messageType cb => (off messageType cb g, [])
  | call_send m => (g, send m g)
  | call_disconnect => disconnect g
  end.

(** A delay the socket may wait: the base unit times 1 to 5 *)
Definition backoff_delay (d : nat) : Prop :=
  ∃ k, (1 ≤ k ≤ maxReconnectAttempts)%nat ∧ d = reconnectDelay * k.

(** A sequence of calls, with everything they did *)
Fixpoint calls (cs : list Call) (g : t) : t * list Effect :=
  match cs with
  | [] => (g, [])
  | c :: rest =>
      let '(g1, e1) := call c g in
      let '(g2, e2) := calls rest g1 in
      (g2, e1 ++ e2)
  end.
End SocketLife.

(** ** Notions for the further properties *)

(** The socket object [connectWebSocket] leaves in the store: new, with the
    five listeners registered in the order of the source, and connecting. *)
Definition registered_socket : GameWebSocket.t :=
  fst (GameWebSocket.connect
    (GameWebSocket.on "move_made" GameWebSocket.on_move_made
    (GameWebSocket.on "game_started" GameWebSocket.on_game_started
    (GameWebSocket.on "player_joined" GameWebSocket.on_player_joined
    (GameWebSocket.on "room_joined" GameWebSocket.on_room_joined
    (GameWebSocket.on "room_created" GameWebSocket.on_room_created
       GameWebSocket.new)))))).

(** What identifies the session in the store: the game, the players, the
    local player and symbol, and the socket. *)
Definition identity (s : Store.t) :=
  (Store.currentGame s, Store.playerXId s, Store.playerOId s,
   Store.myPlayerId s, Store.mySymbol s, Store.ws s).

(** An action that returns normally, touches neither the view nor the log,
    and leaves the identity of the session. *)
Definition quiet (m : M unit) : Prop :=
  ∀ w, ∃ s',
    m w = (Return tt, mkWorld s' (view w) (next_handle w) (log w)) ∧
    identity s' = identity (store w).

(** The rows and columns for which [pretty] is what the template string of
    [makeMove] prints: a [number] holds the naturals up to
    [Number.MAX_SAFE_INTEGER] exactly and prints them as their decimal
    digits (the indices the board passes are 0, 1 and 2). *)
Definition safe_integer (n : nat) : Prop := (N.of_nat n ≤ 9007199254740991)%N.

(** A string without a comma *)
Fixpoint comma_free (s : string) : Prop :=
  match s with
  | EmptyString => True
  | String c rest => c ≠ ","%char ∧ comma_free rest
  end.

(** ** The rest of [components/TicTacToeBoard.vue] *)

Module BoardView.
Import Store.

(** [getCellClass(row, col)], before [classes.join(' ')].  [board[row][col]]
    is read first: a missing row throws, a missing column gives
    [undefined], which is none of [null], ['X'], ['O']. *)
Definition cell_classes (row col : nat) (s : Store.t) : Result (list string) :=
  match board s !! row with
  | None => Throw (TypeError "Cannot read properties of undefined")
  | Some cells =>
      let cell := cells !! col in
      Return
        (["cell"]
         ++ (if bool_decide (cell = Some None) && canMakeMove s
             then ["cell-clickable"] else [])
         ++ match cell with
            | Some (Some X) => ["cell-x"]
            | Some (Some O) => ["cell-o"]
            | _ => []
            end)
  end.

(** [getCellClass(row, col)] *)
Definition getCellClass (row col : nat) (s : Store.t) : Result string :=
  match cell_classes row col s with
  | Return classes => Return (String.concat " " classes)
  | Throw e => Throw e
  end.

(** [gameStatusMessage] *)
Definition gameStatusMessage (s : Store.t) : string :=
  match winner s with
  | Some WinX => "Player X Wins!"
  | Some WinO => "Player O Wins!"
  | Some DRAW => "It's a Draw!"
  | None =>
      if bool_decide (gameStatus s = "waiting") then "Waiting for players..."
      else if bool_decide (gameStatus s = "ongoing") then
        if isMyTurn s then "Your turn!" else "Opponent's turn"
      else "Game finished"
  end.
End BoardView.

(** ** Runs of the retry interval *)

(** The interval fires several times; each time the promise of the
    connection it may start settles as said. *)
Fixpoint ticks (os : list GameStore.Settles) (w : World) : World :=
  match os with
  | [] => w
  | o :: rest => ticks rest (exec (GameView.tick o) w)
  end.

(** The intervals that run after a log: started and not cleared *)
Definition intervals_running (l : list Effect) : Z :=
  foldr (λ e n, match e with
                | SetInterval _ => n + 1
                | ClearInterval _ => n - 1
                | _ => n
                end)%Z 0%Z l.

(** A mounted view goes through a sequence of events. *)
Definition run_events (es : list GameView.Event) (w : World) : World :=
  foldl (λ w e, GameView.step e w) w es.

(** The intervals that run in a world, and how many more there are than the
    one the view knows of *)
Definition running (w : World) : Z := intervals_running (log w).

Definition interval_surplus (w : World) : Z :=
  (running w -
   match View.retryInterval (view w) with Some _ => 1 | None => 0 end)%Z.

(** ** [utils/validation.ts] and the forms that use it *)

(** The text of a form field is a JavaScript string: a sequence of UTF-16
    code units.  [length], the character classes and [trim] of the source
    all work on code units. *)
Definition text := list N.

(** Regular expressions, for the four patterns of the validators: a class of
    code units, concatenation, alternative, repetition.  [test] of a pattern
    written between [^] and [$] is a match of the whole text. *)
Module Regex.
Inductive t :=
| Empty
| Eps
| Class (p : N → bool)
| Cat (r s : t)
| Alt (r s : t)
| Star (r : t).

(** [r+] *)
Definition Plus (r : t) : t := Cat r (Star r).

(** A pattern without anchors is searched anywhere in the text. *)
Definition Search (r : t) : t :=
  Cat (Star (Class (λ _, true))) (Cat r (Star (Class (λ _, true)))).

Fixpoint nullable (r : t) : bool :=
  match r with
  | Empty => false
  | Eps => true
  | Class _ => false
  | Cat r s => nullable r && nullable s
  | Alt r s => nullable r || nullable s
  | Star _ => true
  end.

(** The derivative of a pattern by a code unit *)
Fixpoint deriv (c : N) (r : t) : t :=
  match r with
  | Empty => Empty
  | Eps => Empty
  | Class p => if p c then Eps else Empty
  | Cat r s =>
      if nullable r then Alt (Cat (deriv c r) s) (deriv c s)
      else Cat (deriv c r) s
  | Alt r s => Alt (deriv c r) (deriv c s)
  | Star r => Cat (deriv c r) (Star r)
  end.

(** [/^r$/.test(v)] *)
Fixpoint test (r : t) (v : text) : bool :=
  match v with
  | [] => nullable r
  | c :: rest => test (deriv c r) rest
  end.

(** The texts of a pattern *)
Inductive lang : t → text → Prop :=
| lang_eps : lang Eps []
| lang_class p c : p c = true → lang (Class p) [c]
| lang_cat r s u v : lang r u → lang s v → lang (Cat r s) (u ++ v)
| lang_alt_l r s u : lang r u → lang (Alt r s) u
| lang_alt_r r s u : lang s u → lang (Alt r s) u
| lang_star_nil r : lang (Star r) []
| lang_star_cons r u v : lang r u → lang (Star r) v → lang (Star r) (u ++ v).
End Regex.

Module Validation.
Import Regex.

Definition between (lo hi c : N) : bool := ((lo <=? c) && (c <=? hi))%N.

(** [\s], which is also what [trim] removes: the white space and the line
    terminators of ECMAScript *)
Definition is_space (c : N) : bool :=
  (between 9 13 c || (c =? 32) || (c =? 160) || (c =? 5760)
   || between 8192 8202 c || (c =? 8232) || (c =? 8233) || (c =? 8239)
   || (c =? 8287) || (c =? 12288) || (c =? 65279))%N.

Definition at_sign : N := 64.
Definition dot : N := 46.

(** [[^\s@]] *)
Definition plain (c : N) : bool := negb (is_space c) && negb (c =? at_sign)%N.
(** [[A-Z]], [[a-z]], [[0-9]], [[a-zA-Z0-9_]] *)
Definition upper (c : N) : bool := between 65 90 c.
Definition lower (c : N) : bool := between 97 122 c.
Definition digit (c : N) : bool := between 48 57 c.
Definition word (c : N) : bool := lower c || upper c || digit c || (c =? 95)%N.

(** [/^[^\s@]+@[^\s@]+\.[^\s@]+$/] *)
Definition emailRegex : Regex.t :=
  Cat (Plus (Class plain))
    (Cat (Class (N.eqb at_sign))
       (Cat (Plus (Class plain))
          (Cat (Class (N.eqb dot)) (Plus (Class plain))))).

(** [/^[a-zA-Z0-9_]+$/] *)
Definition usernameRegex : Regex.t := Plus (Class word).

(** [String.prototype.trim] *)
Fixpoint trimStart (v : text) : text :=
  match v with
  | [] => []
  | c :: rest => if is_space c then trimStart rest else v
  end.
Definition trimEnd (v : text) : text := reverse (trimStart (reverse v)).
Definition trim (v : text) : text := trimEnd (trimStart v).

(** [interface ValidationResult] *)
Record ValidationResult := mkResult {
  valid : bool;
  message : option string
}.

Definition ok : ValidationResult := mkResult true None.
Definition fails (m : string) : ValidationResult := mkResult false (Some m).

(** [validators.required] *)
Definition required (value : text) (fieldName : string) : ValidationResult :=
  if bool_decide (value = []) || (length (trim value) =? 0)%nat
  then fails (fieldName +:+ " is required")
  else ok.

(** [validators.email] *)
Definition email (value : text) : ValidationResult :=
  if bool_decide (value = []) then fails "Email is required"
  else if negb (test emailRegex value)
  then fails "Please enter a valid email address"
  else ok.

(** [validators.minLength], [validators.maxLength] *)
Definition minLength (value : text) (min : nat) (fieldName : string)
    : ValidationResult :=
  if (length value <? min)%nat
  then fails (fieldName +:+ " must be at least " +:+ pretty min +:+ " characters")
  else ok.

Definition maxLength (value : text) (max : nat) (fieldName : string)
    : ValidationResult :=
  if (max <? length value)%nat
  then fails (fieldName +:+ " must be at most " +:+ pretty max +:+ " characters")
  else ok.

(** [validators.passwordStrength] *)
Definition passwordStrength (value : text) : ValidationResult :=
  if bool_decide (value = []) then fails "Password is required"
  else if (length value <? 8)%nat
  then fails "Password must be at least 8 characters"
  else if negb (test (Search (Class upper)) value)
  then fails "Password must contain at least one uppercase letter"
  else if negb (test (Search (Class lower)) value)
  then fails "Password must contain at least one lowercase letter"
  else if negb (test (Search (Class digit)) value)
  then fails "Password must contain at least one number"
  else ok.

(** [validators.passwordsMatch] *)
Definition passwordsMatch (password confirmPassword : text) : ValidationResult :=
  if bool_decide (password ≠ confirmPassword)
  then fails "Passwords do not match"
  else ok.

(** [validators.username] *)
Definition username (value : text) : ValidationResult :=
  if bool_decide (value = []) then fails "Username is required"
  else if (length value <? 3)%nat
  then fails "Username must be at least 3 characters"
  else if (20 <? length value)%nat
  then fails "Username must be at most 20 characters"
  else if negb (test usernameRegex value)
  then fails "Username can only contain letters, numbers, and underscores"
  else ok.

(** [validateField(value, rules)] *)
Fixpoint validateField (value : text) (rules : list (text → ValidationResult))
    : ValidationResult :=
  match rules with
  | [] => ok
  | rule :: rest =>
      let result := rule value in
      if negb (valid result) then result else validateField value rest
  end.
End Validation.

(** [errors.value[key] = result.message || ''] when the result is not valid,
    as both forms write it *)
Definition note (key : string) (result : Validation.ValidationResult)
    (errors : gmap string string) : gmap string string :=
  if negb (Validation.valid result)
  then <[key := or_empty (Validation.message result)]> errors
  else errors.

(** The code units of a text written in ASCII *)
Fixpoint units (s : string) : text :=
  match s with
  | EmptyString => []
  | String a rest => N_of_ascii a :: units rest
  end.

(** The sign-up form of [views/SignupView.vue] *)
Module SignupView.
Import Validation.

(** [formData] *)
Record FormData := mkForm {
  username : text;
  email : text;
  password : text;
  confirmPassword : text
}.

(** The refs of the view *)
Record t := mk {
  formData : FormData;
  errors : gmap string string;
  isSubmitting : bool
}.

(** What the view asks of the auth store and of the router *)
Inductive Action :=
| clearError
| signup (username email password : text)
| push (path : string).

(** [canSubmit] *)
Definition canSubmit (f : FormData) : bool :=
  negb (bool_decide (trim (username f) = []))
  && negb (bool_decide (trim (email f) = []))
  && negb (bool_decide (password f = []))
  && negb (bool_decide (confirmPassword f = [])).

(** [validateForm()]: the errors it leaves and what it returns *)
Definition validateForm_errors (f : FormData) : gmap string string :=
  note "confirmPassword" (passwordsMatch (password f) (confirmPassword f))
    (note "password" (passwordStrength (password f))
       (note "email" (Validation.email (email f))
          (note "username" (Validation.username (username f)) ∅))).

Definition validateForm (v : t) : bool * t :=
  let errs := validateForm_errors (formData v) in
  (bool_decide (size errs = 0), mk (formData v) errs (isSubmitting v)).

(** [handleSubmit()]; [rejected] tells whether [authStore.signup] throws,
    which the view catches and ignores. *)
Definition handleSubmit (rejected : bool) (v : t) : t * list Action :=
  let '(valid, v1) := validateForm v in
  if negb valid then (v1, [])
  else
    let f := formData v1 in
    (mk f (errors v1) false,
     [clearError; signup (trim (username f)) (trim (email f)) (password f)]
     ++ (if rejected then [] else [push "/"])).
End SignupView.

(** The log-in form of [views/LoginView.vue] *)
Module LoginView.
Import Validation.

Record FormData := mkForm {
  username : text;
  password : text
}.

(** The refs of the view, and [route.query.redirect] *)
Record t := mk {
  formData : FormData;
  errors : gmap string string;
  isSubmitting : bool;
  redirect : option string
}.

Inductive Action :=
| clearError
| login (username password : text)
| push (path : string).

(** [canSubmit] *)
Definition canSubmit (f : FormData) : bool :=
  negb (bool_decide (trim (username f) = []))
  && negb (bool_decide (trim (password f) = [])).

Definition validateForm_errors (f : FormData) : gmap string string :=
  note "password" (required (password f) "Password")
    (note "username" (Validation.username (username f)) ∅).

Definition validateForm (v : t) : bool * t :=
  let errs := validateForm_errors (formData v) in
  (bool_decide (size errs = 0),
   mk (formData v) errs (isSubmitting v) (redirect v)).

(** [handleSubmit()]; [rejected] tells whether [authStore.login] throws. *)
Definition handleSubmit (rejected : bool) (v : t) : t * list Action :=
  let '(valid, v1) := validateForm v in
  if negb valid then (v1, [])
  else
    let f := formData v1 in
    (mk f (errors v1) false (redirect v1),
     [clearError; login (trim (username f)) (password f)]
     ++ (if rejected then [] else [push (or_else (or_empty (redirect v1)) "/")])).
End LoginView.





(** ** The session: [services/auth.ts], [stores/auth.ts], [router/index.ts] *)

(** [s.includes(needle)] *)
Fixpoint starts_with (needle s : string) : bool :=
  match needle, s with
  | EmptyString, _ => true
  | String a needle', String b s' =>
      if Ascii.eqb a b then starts_with needle' s' else false
  | String _ _, EmptyString => false
  end.

Fixpoint includes (s needle : string) : bool :=
  starts_with needle s
  || match s with
     | EmptyString => false
     | String _ s' => includes s' needle
     end.

Module AuthStore.

(** [interface User], [interface LoginResponse]: the fields the client
    reads *)
Record User := mkUser {
  id : string;
  username : string
}.

Record LoginResponse := mkLogin {
  access_token : string;
  user_id : string
}.

(** What a [fetch] of the service comes to: a response that is [ok] with
    its body, a response that is not, with its status and the [detail] of
    its body (empty when the body has none or is not JSON), or no response
    at all. *)
Inductive Http (A : Type) :=
| Ok (body : A)
| NotOk (status : nat) (detail : string)
| Unreachable (e : Exn).
Arguments Ok {A} body.
Arguments NotOk {A} status detail.
Arguments Unreachable {A} e.

(** What leaves the store: a request to the API, a [router.push] *)
Inductive Did :=
| Request (path : string)
| Push (path : string).

(** The refs of the store, [localStorage['auth_token']], and what was done,
    oldest first *)
Record t := mk {
  user : option User;
  token : option string;
  loading : bool;
  error : option string;
  stored : option string;
  did : list Did
}.

Definition initial (stored : option string) : t :=
  mk None None false None stored [].

Definition set_user x s := mk x (token s) (loading s) (error s) (stored s) (did s).
Definition set_token x s := mk (user s) x (loading s) (error s) (stored s) (did s).
Definition set_loading x s := mk (user s) (token s) x (error s) (stored s) (did s).
Definition set_error x s := mk (user s) (token s) (loading s) x (stored s) (did s).
Definition set_stored x s := mk (user s) (token s) (loading s) (error s) x (did s).
Definition does x s :=
  mk (user s) (token s) (loading s) (error s) (stored s) (did s ++ [x]).

(** A token that passes [if (token)] *)
Definition truthy (o : option string) : bool :=
  match o with
  | Some s => negb (bool_decide (s = ""))
  | None => false
  end.

(** [isAuthenticated], [userId] *)
Definition isAuthenticated (s : t) : bool :=
  bool_decide (token s ≠ None) && bool_decide (user s ≠ None).

Definition userId (s : t) : option string :=
  match user s with
  | Some u => if bool_decide (id u = "") then None else Some (id u)
  | None => None
  end.

(** [authService.signup], [authService.login], [authService.getCurrentUser] *)
Definition authService_signup (h : Http unit) (s : t) : Result unit * t :=
  let s := does (Request "/auth/signup") s in
  match h with
  | Unreachable e => (Throw e, s)
  | NotOk _ detail => (Throw (Error (or_else detail "Failed to sign up")), s)
  | Ok _ => (Return (), s)
  end.

Definition authService_login (h : Http LoginResponse) (s : t)
    : Result LoginResponse * t :=
  let s := does (Request "/auth/login") s in
  match h with
  | Unreachable e => (Throw e, s)
  | NotOk _ detail => (Throw (Error (or_else detail "Invalid credentials")), s)
  | Ok result => (Return result, set_stored (Some (access_token result)) s)
  end.

Definition authService_getCurrentUser (h : Http User) (s : t)
    : Result User * t :=
  if negb (truthy (stored s)) then (Throw (Error "No token available"), s)
  else
    let s := does (Request "/auth/me") s in
    match h with
    | Unreachable e => (Throw e, s)
    | NotOk status detail =>
        if (status =? 401)%nat
        then (Throw (Error "Token expired or invalid"), set_stored None s)
        else (Throw (Error (or_else detail "Failed to get user")), s)
    | Ok userData => (Return userData, s)
    end.

(** [logout()] *)
Definition logout (s : t) : t :=
  does (Push "/login")
    (set_error None (set_token None (set_user None (set_stored None s)))).

(** [fetchUser()] *)
Definition fetchUser (h : Http User) (s : t) : Result unit * t :=
  match authService_getCurrentUser h s with
  | (Return userData, s) => (Return (), set_user (Some userData) s)
  | (Throw err, s) =>
      (Throw err,
       if includes (message err) "Token expired"
          || includes (message err) "invalid"
       then logout s else s)
  end.

(** [login(data)]; the replies of the two requests it can make *)
Definition login (h_login : Http LoginResponse) (h_me : Http User) (s : t)
    : Result LoginResponse * t :=
  let s := set_error None (set_loading true s) in
  let '(r, s) :=
    match authService_login h_login s with
    | (Return response, s) =>
        let s := set_token (Some (access_token response)) s in
        match fetchUser h_me s with
        | (Return _, s) => (Return response, s)
        | (Throw err, s) => (Throw err, s)
        end
    | (Throw err, s) => (Throw err, s)
    end in
  match r with
  | Return response => (Return response, set_loading false s)
  | Throw err =>
      (Throw err,
       set_loading false
         (set_error (Some (or_else (message err) "Failed to log in")) s))
  end.

(** [signup(data)] *)
Definition signup (h_signup : Http unit) (h_login : Http LoginResponse)
    (h_me : Http User) (s : t) : Result unit * t :=
  let s := set_error None (set_loading true s) in
  let '(r, s) :=
    match authService_signup h_signup s with
    | (Return _, s) =>
        match login h_login h_me s with
        | (Return _, s) => (Return (), s)
        | (Throw err, s) => (Throw err, s)
        end
    | (Throw err, s) => (Throw err, s)
    end in
  match r with
  | Return _ => (Return (), set_loading false s)
  | Throw err =>
      (Throw err,
       set_loading false
         (set_error (Some (or_else (message err) "Failed to sign up")) s))
  end.

(** [initialize()], awaited *)
Definition initialize (h_me : Http User) (s : t) : t :=
  if truthy (stored s) then
    let s := set_token (stored s) s in
    match fetchUser h_me s with
    | (Return _, s) => s
    | (Throw _, s) => logout s
    end
  else s.

(** [initialize()] up to its first suspension, which is all of it that a
    caller who does not await it has seen when it goes on: the token is
    taken from the storage and the request for the user has left. *)
Definition initialize_started (s : t) : t :=
  if truthy (stored s)
  then does (Request "/auth/me") (set_token (stored s) s)
  else s.

(** The routes and their [meta] *)
Inductive RouteName := login_route | signup_route | home_route | game_route.

Definition requiresGuest (r : RouteName) : bool :=
  match r with login_route | signup_route => true | _ => false end.
Definition requiresAuth (r : RouteName) : bool :=
  match r with home_route | game_route => true | _ => false end.

(** What the guard passes to [next] *)
Inductive Next :=
| Proceed
| ToLogin (redirect : string)
| ToHome.

(** [router.beforeEach((to, from, next) => ...)]; [initialize()] is called
    and not awaited. *)
Definition beforeEach (to : RouteName) (fullPath : string) (s : t) : Next * t :=
  let s :=
    if negb (isAuthenticated s) && bool_decide (token s = None)
    then initialize_started s else s in
  (if requiresAuth to && negb (isAuthenticated s) then ToLogin fullPath
   else if requiresGuest to && isAuthenticated s then ToHome
   else Proceed,
   s).
End AuthStore.



(** * Properties *)

(** ** Running the monad *)

(** Call-by-value evaluation of the monad, of the setters and of the
    projections; meant for worlds whose records are destructed. *)
Ltac mrun :=
  cbv [exec outcome effects mbind mret M_bind M_ret throw try_catch finally
       get_store get_view modify_store modify_view emit setInterval when
       await_fetch GameStore.on_ws GameStore.send_if_connected
       store view next_handle log fst snd
       Store.set_currentGame Store.set_board Store.set_currentPlayer
       Store.set_winner Store.set_gameStatus Store.set_playerXId
       Store.set_playerOId Store.set_myPlayerId Store.set_mySymbol
       Store.set_ws Store.set_isConnected Store.set_playersInRoom
       Store.currentGame Store.board Store.currentPlayer Store.winner
       Store.gameStatus Store.playerXId Store.playerOId Store.myPlayerId
       Store.mySymbol Store.ws Store.isConnected Store.playersInRoom
       View.set_error View.set_loading View.set_retrying
       View.set_retryInterval View.gameId View.userId View.error
       View.loading View.retrying View.retryInterval] in *.

(** The same, through the methods of the socket and the helpers of the view *)
Ltac mrun_ws :=
  cbv [GameStore.connectWebSocket GameStore.await_connect GameStore.onclose
       GameStore.reconnect GameStore.createRoom GameStore.joinRoom
       GameView.room_command GameView.stopRetrying GameView.startRetrying
       GameView.watch_callback GameView.watched GameView.active GameView.wanted
       GameWebSocket.disconnect GameWebSocket.connect GameWebSocket.onopen
       GameWebSocket.onerror GameWebSocket.reconnect_timer
       GameWebSocket.set_ws GameWebSocket.set_reconnectAttempts
       GameWebSocket.set_listeners GameWebSocket.ws
       GameWebSocket.reconnectAttempts GameWebSocket.listeners
       GameWebSocket.isConnected GameWebSocket.send negb orb andb] in *;
  mrun.

(** A case split on what blocks the evaluation: a variable or a decision *)
Ltac mcase :=
  match goal with
  | |- context [match ?x with _ => _ end] => is_var x; destruct x
  | |- context [bool_decide ?P] => destruct (bool_decide P) eqn:?
  end.

Ltac msteps := repeat (mrun_ws; try mcase).

Ltac bool_facts :=
  repeat match goal with
  | H : bool_decide _ = true |- _ => apply bool_decide_eq_true_1 in H
  | H : bool_decide _ = false |- _ => apply bool_decide_eq_false_1 in H
  end.

Ltac destruct_world w :=
  let s := fresh "s" in
  let v := fresh "v" in
  destruct w as [s v ? ?]; destruct s, v.

Lemma drop_log {A} (l k : list A) : drop (length l) (l ++ k) = k.
Proof. by rewrite drop_app_length. Qed.

Lemma drop_log_nil {A} (l : list A) : drop (length l) l = [].
Proof. by rewrite drop_all. Qed.

(** ** The gate of moves *)

Section MoveGate.
Import Store GameStore.

(** [isMyTurn] holds exactly when the turn and the local symbol are both
    known and equal. *)
Lemma isMyTurn_true s :
  isMyTurn s = true ↔ ∃ p, currentPlayer s = Some p ∧ mySymbol s = Some p.
Proof.
  unfold isMyTurn. destruct (currentPlayer s) as [c|], (mySymbol s) as [m|];
    rewrite ?bool_decide_eq_true; split;
    try (intros (p & ? & ?)); try discriminate; try congruence.
  intros ->. eauto.
Qed.

Lemma canMakeMove_true s :
  canMakeMove s = true ↔
  gameStatus s = "ongoing" ∧ isMyTurn s = true ∧ winner s = None.
Proof.
  unfold canMakeMove. rewrite !andb_true_iff, !bool_decide_eq_true.
  tauto.
Qed.

(** A submission that the gate refuses changes nothing at all. *)
Lemma makeMove_refused row col r w :
  canMakeMove (store w) = false →
  exec (makeMove row col r) w = w ∧
  ∃ e, outcome (makeMove row col r) w = Throw (Error e).
Proof.
  intros H. destruct_world w. unfold makeMove. mrun.
  destruct currentGame0; [|eauto].
  case_bool_decide; [eauto|]. rewrite H. simpl. eauto.
Qed.

(** The two guards of [makeMove]: without a game or a player id, or off
    turn, the call throws and changes nothing at all. *)
Lemma makeMove_guarded row col r w :
  currentGame (store w) = None ∨ myPlayerId (store w) = "" ∨
    canMakeMove (store w) = false →
  makeMove row col r w =
    (Throw (Error
       match currentGame (store w) with
       | Some _ =>
           if bool_decide (myPlayerId (store w) = "")
           then "No active game or player ID" else "It is not your turn"
       | None => "No active game or player ID"
       end), w).
Proof.
  intros H. destruct_world w. unfold makeMove. mrun.
  destruct currentGame0; [|done].
  case_bool_decide; [done|].
  destruct H as [H|[H|H]]; [done|done|]. by rewrite H.
Qed.

(** [makeMove] does not read the board: what it returns or throws and what
    it requests are the same whatever the board holds. *)
Lemma makeMove_ignores_board row col r w b :
  outcome (makeMove row col r) (exec (modify_store (set_board b)) w)
    = outcome (makeMove row col r) w ∧
  effects (makeMove row col r) (exec (modify_store (set_board b)) w)
    = effects (makeMove row col r) w.
Proof.
  destruct_world w. unfold makeMove, makeMove_settle, canMakeMove, isMyTurn.
  mrun. destruct currentGame0; [|by rewrite !drop_log_nil].
  case_bool_decide; [by rewrite !drop_log_nil|].
  destruct (_ && _ && _); cbn [negb]; [|by rewrite !drop_log_nil].
  destruct r; mrun; by rewrite !drop_log.
Qed.

(** After the reply: a rejection changes nothing, whatever happened to the
    state while the request was away. *)
Lemma makeMove_settle_rejected e w :
  makeMove_settle (Rejected e) w = (Throw e, w).
Proof. reflexivity. Qed.

(** A submission that throws left the store and the view as they were. *)
Lemma makeMove_throws row col r w e :
  outcome (makeMove row col r) w = Throw e →
  store (exec (makeMove row col r) w) = store w ∧
  view (exec (makeMove row col r) w) = view w.
Proof.
  destruct_world w. unfold makeMove, makeMove_settle. mrun.
  destruct currentGame0; [|done].
  case_bool_decide; [done|].
  destruct (canMakeMove _); simpl; [|done].
  destruct r; simpl; [done|done].
Qed.
End MoveGate.

Section MoveGateClaims.
Import Store GameStore TicTacToeBoard Examples.

(** C1, as stated, fails: [makeMove] does not look at the board.  Alice, whose
    turn it is, submits the corner she already holds: the request goes to
    the authority and its reply is returned. *)
Lemma makeMove_ignores_occupied_cell :
  ¬ spec_attemptMove 0 0 (Resolved reply_O_next) alice_world.
Proof.
  intros H. destruct H as [[m Hm] _].
  - right. exists [Some X; None; None], X. done.
  - vm_compute in Hm. discriminate.
Qed.

(** C1 (amended): the store's [makeMove] throws an error, sends nothing and
    changes nothing whenever there is no current game or no player id or
    [canMakeMove] is false, and it does not look at the board: what it
    returns, throws and requests is the same whatever the board holds.  The
    occupied cell is checked by the board component: [handleCellClick]
    returns without calling [makeMove] (no request, no change, no error)
    whenever [canMakeMove] is false or [board[row][col]] holds a symbol. *)
Theorem move_gate_is_local row col r w :
  (currentGame (store w) = None ∨ myPlayerId (store w) = "" ∨
     canMakeMove (store w) = false →
     (∃ m, outcome (makeMove row col r) w = Throw (Error m)) ∧
     exec (makeMove row col r) w = w ∧
     effects (makeMove row col r) w = []) ∧
  (∀ b,
     outcome (makeMove row col r) (exec (modify_store (set_board b)) w)
       = outcome (makeMove row col r) w ∧
     effects (makeMove row col r) (exec (modify_store (set_board b)) w)
       = effects (makeMove row col r) w) ∧
  (canMakeMove (store w) = false ∨ occupied (board (store w)) row col →
     outcome (handleCellClick row col r) w = Return tt ∧
     exec (handleCellClick row col r) w = w ∧
     effects (handleCellClick row col r) w = []).
Proof.
  split; [|split].
  - intros H. pose proof (makeMove_guarded row col r w H) as Hw.
    unfold effects, outcome, exec. rewrite Hw. cbn [fst snd].
    split; [eauto|]. split; [done|]. apply drop_log_nil.
  - intros b. apply makeMove_ignores_board.
  - intros H.
    assert (handleCellClick row col r w = (Return tt, w)) as Hc.
    { destruct_world w. unfold handleCellClick. mrun.
      destruct (canMakeMove _) eqn:Hcan; simpl; [|done].
      destruct H as [?|(cells & c & Hrow & Hcol)]; [done|].
      by rewrite Hrow, Hcol. }
    unfold effects, outcome, exec. rewrite Hc. simpl.
    split; [done|]. split; [done|]. apply drop_log_nil.
Qed.

Lemma move_gate_is_local_witness :
  canMakeMove (store bob_world) = false ∧
  occupied (board (store alice_world)) 0 0 ∧
  exec (makeMove 1 1 (Resolved reply_O_next)) bob_world = bob_world ∧
  effects (makeMove 1 1 (Resolved reply_O_next))
    (GameView.setup Store.initial "g7" (Some "alice")) = [] ∧
  exec (handleCellClick 0 0 (Resolved reply_O_next)) alice_world = alice_world.
Proof.
  assert (canMakeMove (store bob_world) = false) as Hb by reflexivity.
  assert (occupied (board (store alice_world)) 0 0) as Ha.
  { exists [Some X; None; None], X. split; reflexivity. }
  split; [exact Hb|]. split; [exact Ha|]. split; [|split].
  - exact (proj1 (proj2 (proj1 (move_gate_is_local 1 1 (Resolved reply_O_next)
                                  bob_world) (or_intror (or_intror Hb))))).
  - exact (proj2 (proj2 (proj1 (move_gate_is_local 1 1 (Resolved reply_O_next)
                                  (GameView.setup Store.initial "g7"
                                     (Some "alice")))
                           (or_introl eq_refl)))).
  - exact (proj1 (proj2 (proj2 (proj2 (move_gate_is_local 0 0
                                          (Resolved reply_O_next) alice_world))
                           (or_intror Ha)))).
Defined.

(** C2: a submission that fails, refused by the gate or rejected by the
    authority, leaves the store as it was before the attempt: the board,
    the status, the winner, the turn and every other ref. *)
Theorem failed_move_leaves_state row col r w e :
  outcome (makeMove row col r) w = Throw e →
  let s' := store (exec (makeMove row col r) w) in
  board s' = board (store w) ∧
  gameStatus s' = gameStatus (store w) ∧
  winner s' = winner (store w) ∧
  currentPlayer s' = currentPlayer (store w) ∧
  s' = store w.
Proof.
  intros H. destruct (makeMove_throws row col r w e H) as [Hs _].
  simpl. by rewrite Hs.
Qed.

Lemma failed_move_leaves_state_witness :
  outcome (makeMove 0 1 (Rejected (Error "Invalid move"))) alice_world
    = Throw (Error "Invalid move") ∧
  store (exec (makeMove 0 1 (Rejected (Error "Invalid move"))) alice_world)
    = alice.
Proof.
  assert (outcome (makeMove 0 1 (Rejected (Error "Invalid move"))) alice_world
          = Throw (Error "Invalid move")) as H by reflexivity.
  split; [exact H|].
  exact (proj2 (proj2 (proj2 (proj2
           (failed_move_leaves_state 0 1 _ alice_world _ H))))).
Defined.

(** C3, as stated, fails on a store in which neither the turn nor the local
    symbol is known: the two [null]s are equal, so the formula of the
    specification allows a move, and [canMakeMove] does not. *)
Lemma canMakeMove_differs_on_unknown_symbols :
  spec_canSubmitMove spectator = true ∧ canMakeMove spectator = false.
Proof. split; reflexivity. Qed.

(** C3 (amended): [canMakeMove] is [gameStatus = 'ongoing'], [isMyTurn] and
    no winner, where [isMyTurn] holds when the turn and the local symbol are
    both known and equal; it is false whenever the status is not ongoing,
    there is a winner, or the turn differs from the local symbol; and it
    agrees with the formula of the specification as soon as the turn or the
    local symbol is known. *)
Theorem canMakeMove_characterised s :
  (canMakeMove s = true ↔
     gameStatus s = "ongoing" ∧
     (∃ p, currentPlayer s = Some p ∧ mySymbol s = Some p) ∧
     winner s = None) ∧
  (gameStatus s ≠ "ongoing" ∨ winner s ≠ None ∨ currentPlayer s ≠ mySymbol s →
     canMakeMove s = false) ∧
  (is_Some (currentPlayer s) ∨ is_Some (mySymbol s) →
     canMakeMove s = spec_canSubmitMove s).
Proof.
  split; [|split].
  - rewrite canMakeMove_true, isMyTurn_true. done.
  - intros H. apply not_true_is_false. rewrite canMakeMove_true, isMyTurn_true.
    intros (Hs & (p & Hc & Hm) & Hw). destruct H as [?|[?|?]]; [done|done|].
    congruence.
  - intros H. unfold canMakeMove, spec_canSubmitMove, spec_isLocalTurn, isMyTurn.
    destruct (currentPlayer s) as [c|], (mySymbol s) as [m|]; simpl.
    + f_equal. f_equal. apply bool_decide_ext. split; congruence.
    + by rewrite andb_false_r.
    + by rewrite andb_false_r.
    + destruct H as [[? ?]|[? ?]]; done.
Qed.

Lemma canMakeMove_characterised_witness :
  canMakeMove bob = false ∧ canMakeMove alice = spec_canSubmitMove alice.
Proof.
  split.
  - apply (proj1 (proj2 (canMakeMove_characterised bob))).
    right; right. discriminate.
  - apply (proj2 (proj2 (canMakeMove_characterised alice))).
    left. eexists. reflexivity.
Defined.

(** C10: [reset()] puts every ref of the store back to its initial value
    and returns normally; when a [GameWebSocket] is held it is disconnected
    before it is dropped: the transport it holds, if any, is closed, and
    that close is all the call does outside the store. *)
Theorem reset_restores_initial w :
  store (exec reset w) =
    {| currentGame := None;
       board := [ [None; None; None]; [None; None; None]; [None; None; None] ];
       currentPlayer := None; winner := None; gameStatus := "waiting";
       playerXId := ""; playerOId := ""; myPlayerId := ""; mySymbol := None;
       ws := None; isConnected := false; playersInRoom := 0 |} ∧
  store (exec reset w) = Store.initial ∧
  view (exec reset w) = view w ∧
  outcome reset w = Return tt ∧
  effects reset w =
    match ws (store w) with
    | Some g =>
        match GameWebSocket.ws g with
        | Some _ => [SocketClose]
        | None => []
        end
    | None => []
    end.
Proof.
  change Store.initial with
    {| currentGame := None;
       board := [ [None; None; None]; [None; None; None]; [None; None; None] ];
       currentPlayer := None; winner := None; gameStatus := "waiting";
       playerXId := ""; playerOId := ""; myPlayerId := ""; mySymbol := None;
       ws := None; isConnected := false; playersInRoom := 0 |}.
  destruct_world w. destruct ws0 as [g|].
  - unfold reset, GameWebSocket.disconnect. mrun.
    destruct (GameWebSocket.ws g); mrun;
      rewrite ?app_nil_r, ?drop_log, ?drop_log_nil; done.
  - unfold reset. mrun. by rewrite drop_log_nil.
Qed.
End MoveGateClaims.

(** ** Reconnection with backoff ([GameWebSocket]) *)

Section Backoff.
Import GameWebSocket.

Lemma attemptReconnect_below g :
  reconnectAttempts g < maxReconnectAttempts →
  attemptReconnect g =
    (set_reconnectAttempts (S (reconnectAttempts g)) g,
     [SetTimeout (reconnectDelay * S (reconnectAttempts g))]).
Proof.
  intros H. unfold attemptReconnect. by rewrite bool_decide_eq_true_2.
Qed.

Lemma attemptReconnect_at_cap g :
  (maxReconnectAttempts ≤ reconnectAttempts g)%nat →
  attemptReconnect g = (g, []).
Proof.
  intros H. unfold attemptReconnect. rewrite bool_decide_eq_false_2; [done|lia].
Qed.

(** One close below the cap, followed by the reconnection that fails *)
Lemma outage_step n g :
  reconnectAttempts g < maxReconnectAttempts →
  outage (S n) g =
    let g' := onerror (set_ws (Some CONNECTING)
                (set_reconnectAttempts (S (reconnectAttempts g))
                   (set_ws None g))) in
    (fst (outage n g'),
     SetTimeout (reconnectDelay * S (reconnectAttempts g))
       :: NewWebSocket :: snd (outage n g')).
Proof.
  intros H. cbn [outage]. unfold onclose.
  rewrite attemptReconnect_below by done. cbn [reconnect_timer connect].
  cbn [set_ws reconnectAttempts]. by destruct (outage n _).
Qed.

Lemma outage_at_cap n g :
  (maxReconnectAttempts ≤ reconnectAttempts g)%nat →
  outage (S n) g = (set_ws None g, []).
Proof.
  intros H. cbn [outage]. unfold onclose.
  by rewrite attemptReconnect_at_cap.
Qed.

(** The timers of an outage that starts with [a] attempts on the counter:
    one per close, [reconnectDelay] times the number of the attempt, until
    the counter is at the cap. *)
Lemma outage_schedule n : ∀ g,
  (reconnectAttempts g ≤ maxReconnectAttempts)%nat →
  delays (snd (outage n g)) =
    (λ k, reconnectDelay * k) <$>
      seq (S (reconnectAttempts g))
          (min n (maxReconnectAttempts - reconnectAttempts g)) ∧
  sockets_opened (snd (outage n g)) =
    min n (maxReconnectAttempts - reconnectAttempts g).
Proof.
  induction n as [|n IH]; intros g Hle; [done|].
  destruct (decide (reconnectAttempts g < maxReconnectAttempts)) as [Hlt|Hge].
  - rewrite outage_step by done. cbn [snd].
    set (g' := onerror _).
    assert (reconnectAttempts g' = S (reconnectAttempts g)) as Hg' by done.
    destruct (IH g') as [IHd IHs]; [rewrite Hg'; lia|].
    replace (maxReconnectAttempts - reconnectAttempts g)
      with (S (maxReconnectAttempts - reconnectAttempts g')) by (rewrite Hg'; lia).
    rewrite <- Nat.succ_min_distr. cbn [seq fmap list_fmap].
    split.
    + unfold delays in *. cbn [omap list_omap]. rewrite IHd, Hg'. done.
    + unfold sockets_opened in *. cbn [omap list_omap length]. by rewrite IHs.
  - rewrite outage_at_cap by lia.
    replace (maxReconnectAttempts - reconnectAttempts g) with 0 by lia.
    by rewrite Nat.min_0_r.
Qed.

(** Once the counter is at the cap, a close starts nothing, however many
    closes follow. *)
Lemma outage_exhausted n g :
  reconnectAttempts g = maxReconnectAttempts → ws g = None →
  outage n g = (g, []).
Proof.
  intros Ha Hw. destruct n as [|n]; [done|].
  rewrite outage_at_cap by lia. destruct g; simpl in *. by subst.
Qed.

(** The state an outage ends in, when it is followed to its end *)
Lemma outage_end n : ∀ g,
  (reconnectAttempts g ≤ maxReconnectAttempts)%nat →
  maxReconnectAttempts - reconnectAttempts g < n →
  ws (fst (outage n g)) = None ∧
  reconnectAttempts (fst (outage n g)) = maxReconnectAttempts.
Proof.
  induction n as [|n IH]; intros g Hle Hn; [lia|].
  destruct (decide (reconnectAttempts g < maxReconnectAttempts)) as [Hlt|Hge].
  - rewrite outage_step by done. cbv zeta. cbn [fst].
    apply IH; cbn [onerror set_ws set_reconnectAttempts reconnectAttempts]; lia.
  - rewrite outage_at_cap by lia. split; [done|].
    cbn [fst set_ws reconnectAttempts]. lia.
Qed.

(** C6: after a transport close the reconnections are scheduled with the
    delays 1000 x 1, 1000 x 2, ... (the base unit times the number of the
    attempt), at most 5 of them; a close that finds the counter at 5 starts
    no timer and opens no socket, and nothing more happens by itself, since
    the object is left without a transport till [connect()] is called. *)
Theorem backoff_linear_and_capped g n :
  reconnectAttempts g = 0 →
  delays (snd (outage n g)) = (λ k, 1000 * k) <$> seq 1 (min n 5) ∧
  sockets_opened (snd (outage n g)) = min n 5 ∧
  (5 < n →
     ws (fst (outage n g)) = None ∧
     reconnectAttempts (fst (outage n g)) = 5 ∧
     ∀ m, outage m (fst (outage n g)) = (fst (outage n g), [])).
Proof.
  intros H0.
  destruct (outage_schedule n g) as [Hd Hs];
    [rewrite H0; unfold maxReconnectAttempts; lia|].
  rewrite H0 in Hd, Hs. split; [exact Hd|]. split; [exact Hs|].
  intros Hn.
  destruct (outage_end n g) as [Hw Ha];
    [rewrite H0; unfold maxReconnectAttempts; lia
    |rewrite H0; unfold maxReconnectAttempts; lia|].
  split; [done|]. split; [done|].
  intros m. by apply outage_exhausted.
Qed.

Lemma backoff_linear_and_capped_witness :
  delays (snd (outage 7 new)) = [1000; 2000; 3000; 4000; 5000] ∧
  sockets_opened (snd (outage 7 new)) = 5.
Proof.
  destruct (backoff_linear_and_capped new 7 eq_refl) as (Hd & Hs & _).
  split; [exact Hd | exact Hs].
Defined.

(** C9: [onopen] puts the counter of attempts back to 0, so the cap counts
    the attempts of one outage: whatever the counter was, a close that
    follows an open is again followed by up to 5 reconnections, with the
    delays starting again at 1000. *)
Theorem open_resets_attempts g n :
  reconnectAttempts (onopen g) = 0 ∧
  delays (snd (outage n (onopen g))) = (λ k, 1000 * k) <$> seq 1 (min n 5) ∧
  sockets_opened (snd (outage n (onopen g))) = min n 5.
Proof.
  split; [done|].
  destruct (outage_schedule n (onopen g)) as [Hd Hs];
    [cbn; unfold maxReconnectAttempts; lia|].
  split; [exact Hd | exact Hs].
Qed.
End Backoff.

(** ** What an action leaves alone *)

Section Preservation.
Context {B : Type} (f : World → B).

Lemma preserves_mret {A} (a : A) : preserves f (mret a).
Proof. by intros w. Qed.

Lemma preserves_throw {A} e : preserves f (throw (A:=A) e).
Proof. by intros w. Qed.

Lemma preserves_get_store : preserves f get_store.
Proof. by intros w. Qed.

Lemma preserves_get_view : preserves f get_view.
Proof. by intros w. Qed.

Lemma preserves_bind {A C} (m : M A) (k : A → M C) :
  preserves f m → (∀ a, preserves f (k a)) → preserves f (m ≫= k).
Proof.
  intros Hm Hk w. specialize (Hm w). unfold exec, mbind, M_bind in *.
  destruct (m w) as [[a|e] w1]; simpl in *; [|done].
  by rewrite <- Hm, <- (Hk a w1).
Qed.

Lemma preserves_try_catch {A} (m : M A) (h : Exn → M A) :
  preserves f m → (∀ e, preserves f (h e)) → preserves f (try_catch m h).
Proof.
  intros Hm Hh w. specialize (Hm w). unfold exec, try_catch in *.
  destruct (m w) as [[a|e] w1]; simpl in *; [done|].
  by rewrite <- Hm, <- (Hh e w1).
Qed.

Lemma preserves_finally {A} (m : M A) (g : World → World) :
  preserves f m → (∀ w, f (g w) = f w) → preserves f (finally m g).
Proof.
  intros Hm Hg w. specialize (Hm w). unfold exec, finally in *.
  destruct (m w) as [r w1]; simpl in *. by rewrite Hg.
Qed.

Lemma preserves_when b (m : M unit) : preserves f m → preserves f (when b m).
Proof. destruct b; [done|]. intros _. apply preserves_mret. Qed.

Lemma preserves_foldr {A} (k : A → M unit) (l : list A) :
  (∀ a, preserves f (k a)) →
  preserves f (foldr (λ a rest, k a;; rest) (mret tt) l).
Proof.
  intros Hk. induction l as [|a l IH]; simpl.
  - apply preserves_mret.
  - apply preserves_bind; [apply Hk | by intros _].
Qed.
End Preservation.

Section PreservationOfStore.
Context {B : Type} (φ : Store.t → B).

Lemma of_store_modify_store g :
  (∀ s, φ (g s) = φ s) → preserves (of_store φ) (modify_store g).
Proof. intros H w. apply H. Qed.

Lemma of_store_modify_view g : preserves (of_store φ) (modify_view g).
Proof. by intros w. Qed.

Lemma of_store_emit l : preserves (of_store φ) (emit l).
Proof. by intros w. Qed.

Lemma of_store_setInterval p : preserves (of_store φ) (setInterval p).
Proof. by intros w. Qed.
End PreservationOfStore.

Section PreservationOfView.
Context {B : Type} (ψ : View.t → B).

Lemma of_view_modify_view g :
  (∀ v, ψ (g v) = ψ v) → preserves (of_view ψ) (modify_view g).
Proof. intros H w. apply H. Qed.

Lemma of_view_modify_store g : preserves (of_view ψ) (modify_store g).
Proof. by intros w. Qed.

Lemma of_view_emit l : preserves (of_view ψ) (emit l).
Proof. by intros w. Qed.
End PreservationOfView.

(** Facts of the form [preserves f m] about the actions of the program *)
Create HintDb preserve.

(** Goes through an action following its syntax; the writes are checked by
    computation, the actions already dealt with come from the hints. *)
Ltac preserve_step :=
  lazymatch goal with
  | |- preserves _ (mret _) => apply preserves_mret
  | |- preserves _ (throw _) => apply preserves_throw
  | |- preserves _ get_store => apply preserves_get_store
  | |- preserves _ get_view => apply preserves_get_view
  | |- preserves _ (_ ≫= _) => apply preserves_bind; [|intros ?]
  | |- preserves _ (try_catch _ _) => apply preserves_try_catch; [|intros ?]
  | |- preserves _ (finally _ _) =>
      apply preserves_finally; [|intros ?; reflexivity]
  | |- preserves _ (when _ _) => apply preserves_when
  | |- preserves _ (await_fetch _ _) => unfold await_fetch
  | |- preserves _ (foldr _ _ _) => apply preserves_foldr; intros ?
  | |- preserves (of_store _) (modify_store _) =>
      apply of_store_modify_store; intros ?; reflexivity
  | |- preserves (of_store _) (modify_view _) => apply of_store_modify_view
  | |- preserves (of_store _) (emit _) => apply of_store_emit
  | |- preserves (of_store _) (setInterval _) => apply of_store_setInterval
  | |- preserves (of_view _) (modify_view _) =>
      apply of_view_modify_view; intros ?; reflexivity
  | |- preserves (of_view _) (modify_store _) => apply of_view_modify_store
  | |- preserves (of_view _) (emit _) => apply of_view_emit
  | |- preserves _ (match ?x with _ => _ end) => destruct x
  | |- preserves _ _ => solve [auto with preserve]
  end.

Ltac preserve := repeat preserve_step.

(** *** The local symbol *)

(** It is not written by the socket, by the pushes, by the room commands, by
    a move, nor by the supervisor. *)
Lemma mySymbol_on_ws f : preserves (of_store Store.mySymbol) (GameStore.on_ws f).
Proof. unfold GameStore.on_ws. preserve. Qed.
#[global] Hint Resolve mySymbol_on_ws : preserve.

Lemma mySymbol_connectWebSocket :
  preserves (of_store Store.mySymbol) GameStore.connectWebSocket.
Proof. unfold GameStore.connectWebSocket. preserve. Qed.

Lemma mySymbol_await_connect o :
  preserves (of_store Store.mySymbol) (GameStore.await_connect o).
Proof. unfold GameStore.await_connect. preserve. Qed.
#[global] Hint Resolve mySymbol_connectWebSocket mySymbol_await_connect : preserve.

Lemma mySymbol_run_listener l m :
  preserves (of_store Store.mySymbol) (GameStore.run_listener l m).
Proof. unfold GameStore.run_listener. preserve. Qed.
#[global] Hint Resolve mySymbol_run_listener : preserve.

Lemma mySymbol_onmessage fr :
  preserves (of_store Store.mySymbol) (GameStore.onmessage fr).
Proof. unfold GameStore.onmessage. preserve. Qed.

Lemma mySymbol_onclose : preserves (of_store Store.mySymbol) GameStore.onclose.
Proof. unfold GameStore.onclose. preserve. Qed.

Lemma mySymbol_reconnect o :
  preserves (of_store Store.mySymbol) (GameStore.reconnect o).
Proof. unfold GameStore.reconnect. preserve. Qed.

Lemma mySymbol_send m :
  preserves (of_store Store.mySymbol) (GameStore.send_if_connected m).
Proof. unfold GameStore.send_if_connected. preserve. Qed.
#[global] Hint Resolve mySymbol_send : preserve.

Lemma mySymbol_makeMove row col r :
  preserves (of_store Store.mySymbol) (GameStore.makeMove row col r).
Proof. unfold GameStore.makeMove, GameStore.makeMove_settle. preserve. Qed.
#[global] Hint Resolve mySymbol_makeMove : preserve.

Lemma mySymbol_handleCellClick row col r :
  preserves (of_store Store.mySymbol) (TicTacToeBoard.handleCellClick row col r).
Proof. unfold TicTacToeBoard.handleCellClick. preserve. Qed.

Lemma mySymbol_room_command :
  preserves (of_store Store.mySymbol) GameView.room_command.
Proof.
  unfold GameView.room_command, GameStore.createRoom, GameStore.joinRoom.
  preserve.
Qed.
#[global] Hint Resolve mySymbol_room_command : preserve.

Lemma mySymbol_stopRetrying :
  preserves (of_store Store.mySymbol) GameView.stopRetrying.
Proof. unfold GameView.stopRetrying. preserve. Qed.

Lemma mySymbol_startRetrying :
  preserves (of_store Store.mySymbol) GameView.startRetrying.
Proof. unfold GameView.startRetrying. preserve. Qed.
#[global] Hint Resolve mySymbol_stopRetrying mySymbol_startRetrying : preserve.

Lemma mySymbol_tick o : preserves (of_store Store.mySymbol) (GameView.tick o).
Proof. unfold GameView.tick. preserve. Qed.

Lemma mySymbol_retryConnection o :
  preserves (of_store Store.mySymbol) (GameView.retryConnection o).
Proof. unfold GameView.retryConnection. preserve. Qed.

(** *** The handle of the interval *)

(** No action of the store touches the view. *)
Lemma view_on_ws {B} (ψ : View.t → B) f :
  preserves (of_view ψ) (GameStore.on_ws f).
Proof. unfold GameStore.on_ws. preserve. Qed.
#[global] Hint Resolve view_on_ws : preserve.

Lemma view_connectWebSocket {B} (ψ : View.t → B) :
  preserves (of_view ψ) GameStore.connectWebSocket.
Proof. unfold GameStore.connectWebSocket. preserve. Qed.

Lemma view_await_connect {B} (ψ : View.t → B) o :
  preserves (of_view ψ) (GameStore.await_connect o).
Proof. unfold GameStore.await_connect. preserve. Qed.
#[global] Hint Resolve view_connectWebSocket view_await_connect : preserve.

Lemma view_run_listener {B} (ψ : View.t → B) l m :
  preserves (of_view ψ) (GameStore.run_listener l m).
Proof. unfold GameStore.run_listener. preserve. Qed.
#[global] Hint Resolve view_run_listener : preserve.

Lemma view_onmessage {B} (ψ : View.t → B) fr :
  preserves (of_view ψ) (GameStore.onmessage fr).
Proof. unfold GameStore.onmessage. preserve. Qed.

Lemma view_onclose {B} (ψ : View.t → B) : preserves (of_view ψ) GameStore.onclose.
Proof. unfold GameStore.onclose. preserve. Qed.

Lemma view_reconnect {B} (ψ : View.t → B) o :
  preserves (of_view ψ) (GameStore.reconnect o).
Proof. unfold GameStore.reconnect. preserve. Qed.

Lemma view_send {B} (ψ : View.t → B) m :
  preserves (of_view ψ) (GameStore.send_if_connected m).
Proof. unfold GameStore.send_if_connected. preserve. Qed.
#[global] Hint Resolve view_send : preserve.

Lemma view_makeMove {B} (ψ : View.t → B) row col r :
  preserves (of_view ψ) (GameStore.makeMove row col r).
Proof. unfold GameStore.makeMove, GameStore.makeMove_settle. preserve. Qed.
#[global] Hint Resolve view_makeMove : preserve.

Lemma view_handleCellClick {B} (ψ : View.t → B) row col r :
  preserves (of_view ψ) (TicTacToeBoard.handleCellClick row col r).
Proof. unfold TicTacToeBoard.handleCellClick. preserve. Qed.

Lemma view_loadGame {B} (ψ : View.t → B) gid uid rG rB :
  preserves (of_view ψ) (GameStore.loadGame gid uid rG rB).
Proof. unfold GameStore.loadGame. preserve. Qed.
#[global] Hint Resolve view_loadGame : preserve.

Lemma view_room_command {B} (ψ : View.t → B) :
  preserves (of_view ψ) GameView.room_command.
Proof.
  unfold GameView.room_command, GameStore.createRoom, GameStore.joinRoom.
  preserve.
Qed.
#[global] Hint Resolve view_room_command : preserve.

(** Mounting and the manual retry write [loading], [error] and [retrying],
    never the handle of the interval. *)
Lemma retryInterval_initializeGame rG rB o :
  preserves (of_view View.retryInterval) (GameView.initializeGame rG rB o).
Proof.
  unfold GameView.initializeGame, GameStore.createRoom, GameStore.joinRoom.
  preserve.
Qed.

Lemma retryInterval_retryConnection o :
  preserves (of_view View.retryInterval) (GameView.retryConnection o).
Proof. unfold GameView.retryConnection. preserve. Qed.

(** ** The local symbol *)

Section LocalSymbol.
Import Store View GameStore GameView Examples.

Lemma with_watch_exec m w :
  exec (with_watch m) w =
    if bool_decide (watched (exec m w) = watched w) then exec m w
    else exec (watch_callback (watched (exec m w))) (exec m w).
Proof.
  unfold with_watch, exec. destruct (m w) as [r w1]; simpl.
  by case_bool_decide.
Qed.

(** The callback of the watcher leaves the store alone. *)
Lemma of_store_watch_callback {B} (φ : Store.t → B) p :
  preserves (of_store φ) (watch_callback p).
Proof.
  destruct p as [c n]. unfold watch_callback.
  destruct (negb c || bool_decide (n < 2)%Z);
    unfold startRetrying, stopRetrying; preserve.
Qed.

Lemma of_store_with_watch {B} (φ : Store.t → B) m :
  preserves (of_store φ) m → preserves (of_store φ) (with_watch m).
Proof.
  intros H w. rewrite with_watch_exec. case_bool_decide; [apply H|].
  rewrite of_store_watch_callback. apply H.
Qed.

Lemma mySymbol_handler e :
  (∀ rG rB o, e ≠ Mounted rG rB o) →
  preserves (of_store mySymbol) (handler e).
Proof.
  intros He. destruct e; simpl.
  - by destruct (He rGame rBoard o).
  - apply mySymbol_onmessage.
  - apply mySymbol_onclose.
  - apply mySymbol_reconnect.
  - pose proof (mySymbol_tick o). preserve.
  - apply mySymbol_retryConnection.
  - apply mySymbol_handleCellClick.
Qed.

(** With the call of [connectWebSocket] itself, the two functions of the
    mounted view are [initializeGame] and [retryConnection]. *)
Lemma initializeGame_with_call rG rB o :
  initializeGame_with connectWebSocket rG rB o = initializeGame rG rB o.
Proof. reflexivity. Qed.

Lemma retryConnection_with_call o :
  retryConnection_with connectWebSocket o = retryConnection o.
Proof. reflexivity. Qed.

(** In the mounted view too, with the job of the watcher where it runs. *)
Lemma mySymbol_mounted e :
  (∀ rG rB o, e ≠ Mounted rG rB o) →
  preserves (of_store mySymbol) (mounted e).
Proof.
  intros He.
  pose proof (of_store_with_watch mySymbol _ mySymbol_connectWebSocket) as Hc.
  destruct e; cbn [mounted].
  - by destruct (He rGame rBoard o).
  - apply of_store_with_watch, mySymbol_handler. discriminate.
  - apply of_store_with_watch, mySymbol_handler. discriminate.
  - apply of_store_with_watch, mySymbol_handler. discriminate.
  - apply of_store_with_watch, mySymbol_handler. discriminate.
  - unfold retryConnection_with. preserve.
  - apply of_store_with_watch, mySymbol_handler. discriminate.
Qed.



End LocalSymbol.

(** The two refs the watcher looks at are not written by the methods of
    the socket. *)
Lemma flags_on_ws f :
  preserves (of_store (λ s, (Store.isConnected s, Store.playersInRoom s)))
    (GameStore.on_ws f).
Proof. unfold GameStore.on_ws. preserve. Qed.
#[global] Hint Resolve flags_on_ws : preserve.

Lemma flags_onclose :
  preserves (of_store (λ s, (Store.isConnected s, Store.playersInRoom s)))
    GameStore.onclose.
Proof. unfold GameStore.onclose. preserve. Qed.

Lemma flags_reconnect o :
  preserves (of_store (λ s, (Store.isConnected s, Store.playersInRoom s)))
    (GameStore.reconnect o).
Proof. unfold GameStore.reconnect, GameStore.await_connect. preserve. Qed.

(** A click writes neither of the two refs of the watcher. *)
Lemma isConnected_handleCellClick row col r :
  preserves (of_store Store.isConnected)
    (TicTacToeBoard.handleCellClick row col r).
Proof.
  unfold TicTacToeBoard.handleCellClick, GameStore.makeMove,
    GameStore.makeMove_settle.
  preserve.
Qed.

Lemma playersInRoom_handleCellClick row col r :
  preserves (of_store Store.playersInRoom)
    (TicTacToeBoard.handleCellClick row col r).
Proof.
  unfold TicTacToeBoard.handleCellClick, GameStore.makeMove,
    GameStore.makeMove_settle.
  preserve.
Qed.

(** ** The supervisor of the connection *)

Section Supervisor.
Import Store View GameStore GameView Examples.

Lemma wanted_watched w1 w : watched w1 = watched w → wanted w1 = wanted w.
Proof. unfold watched, wanted. by intros [= -> ->]. Qed.

Lemma active_retryInterval w1 w :
  retryInterval (view w1) = retryInterval (view w) → active w1 = active w.
Proof. unfold active. by intros ->. Qed.

(** The callback of the watcher leaves the supervisor as the two refs want
    it. *)
Lemma watch_callback_sets w :
  active (exec (watch_callback (watched w)) w)
  = wanted (exec (watch_callback (watched w)) w).
Proof.
  destruct_world w. destruct isConnected0, retryInterval0; mrun_ws;
    try reflexivity.
  all: destruct (bool_decide (playersInRoom0 < 2)%Z) eqn:E; mrun_ws;
    rewrite ?E; reflexivity.
Qed.

(** A tick of a supervisor that is wanted does not stop it. *)
Lemma tick_keeps_interval o w :
  wanted w = true →
  retryInterval (view (exec (tick o) w)) = retryInterval (view w).
Proof.
  intros H. destruct_world w. unfold tick. msteps.
  all: bool_facts; try done; lia.
Qed.

(** A tick that finds the connection confirmed and two players stops the
    supervisor. *)
Lemma tick_stops o w :
  isConnected (store w) = true → (2 ≤ playersInRoom (store w))%Z →
  retryInterval (view (exec (tick o) w)) = None.
Proof.
  intros Hc Hp. destruct_world w. unfold tick. mrun. subst. msteps.
  all: bool_facts; try done; lia.
Qed.

Lemma startRetrying_running w :
  active w = true → exec startRetrying w = w.
Proof.
  intros H. destruct_world w. destruct retryInterval0; [by msteps|].
  by vm_compute in H.
Qed.

(** Without a change of the two refs, a handler leaves the supervisor as
    it was, provided it was as wanted. *)
Lemma handler_keeps_supervisor e w :
  active w = wanted w → active (exec (handler e) w) = active w.
Proof.
  intros Hinv. apply active_retryInterval. destruct e; simpl.
  - apply (retryInterval_initializeGame rGame rBoard o w).
  - apply (view_onmessage retryInterval frame w).
  - apply (view_onclose retryInterval w).
  - apply (view_reconnect retryInterval o w).
  - unfold active in Hinv.
    destruct (retryInterval (view w)) as [h|] eqn:Hh.
    + change (exec (get_view ≫= _) w) with
        (exec (match retryInterval (view w) with
               | Some _ => tick o
               | None => mret tt
               end) w).
      rewrite Hh, tick_keeps_interval; [done|].
      rewrite <- Hinv. apply bool_decide_eq_true_2. by eexists.
    + change (exec (get_view ≫= _) w) with
        (exec (match retryInterval (view w) with
               | Some _ => tick o
               | None => mret tt
               end) w).
      by rewrite Hh.
  - apply (retryInterval_retryConnection o w).
  - apply (view_handleCellClick retryInterval row col r w).
Qed.

(** Code that changes neither of the two refs runs as without the
    watcher. *)
Lemma with_watch_without_change m w :
  watched (exec m w) = watched w → exec (with_watch m) w = exec m w.
Proof. intros H. rewrite with_watch_exec. by rewrite bool_decide_eq_true_2. Qed.

(** While the store is not connected and no interval runs, an event that
    brings no frame leaves it so: [connectWebSocket] writes [false] over
    [false], which changes nothing, and the watcher is not run. *)
Lemma idle_step e w :
  no_push e = true →
  isConnected (store w) = false → retryInterval (view w) = None →
  isConnected (store (step e w)) = false ∧
  retryInterval (view (step e w)) = None.
Proof.
  intros He Hc Hr.
  destruct e as [rG rB o|[m|]|  |o|o|o|row col r]; try discriminate He;
    unfold step; cbn [mounted handler].
  - destruct_world w. cbn in Hc, Hr. subst.
    unfold initializeGame_with, with_watch, loadGame, or_undefined.
    destruct rG as [g0|e0], rB as [b0|e1], o, ws0 as [[[rs|] att ls]|];
      msteps; bool_facts; done.
  - by rewrite with_watch_without_change.
  - pose proof (flags_onclose w) as Hf.
    pose proof (view_onclose retryInterval w) as Hv.
    unfold of_store, of_view in Hf, Hv.
    rewrite (with_watch_without_change _ w Hf).
    injection Hf as H1 _. by rewrite H1, Hv.
  - pose proof (flags_reconnect o w) as Hf.
    pose proof (view_reconnect retryInterval o w) as Hv.
    unfold of_store, of_view in Hf, Hv.
    rewrite (with_watch_without_change _ w Hf).
    injection Hf as H1 _. by rewrite H1, Hv.
  - assert (exec (v ← get_view;
                  match retryInterval v with
                  | Some _ => tick o
                  | None => mret tt
                  end) w = w) as Hw.
    { destruct_world w. cbn in Hr. subst. reflexivity. }
    rewrite with_watch_without_change; by rewrite Hw.
  - destruct_world w. cbn in Hc, Hr. subst.
    unfold retryConnection_with, with_watch.
    destruct o, ws0 as [[[rs|] att ls]|]; msteps; bool_facts; done.
  - pose proof (isConnected_handleCellClick row col r w) as H1.
    pose proof (playersInRoom_handleCellClick row col r w) as H2.
    unfold of_store in H1, H2.
    rewrite with_watch_without_change
      by (unfold watched; by rewrite H1, H2).
    pose proof (view_handleCellClick retryInterval row col r w) as Hv.
    unfold of_view in Hv. by rewrite H1, Hv.
Qed.

(** The closed instance: the view is mounted on a fresh store, the game and
    the board load, and the socket fails to open. *)
Example supervisor_idle_when_never_connected :
  isConnected (store never_connected) = false ∧
  wanted never_connected = true ∧
  active never_connected = false.
Proof. repeat split. Qed.

(** C5 (a defect of the code): the supervisor is not started by the state
    it is meant for, only by a change of it.  The comment of [startRetrying]
    announces a retry every 3 seconds if disconnected or not enough players,
    and the callback of the watcher tests that level; but the watcher has no
    [immediate], so it does not run on the state the view starts in.  A view
    mounted on a store that is not connected (a fresh one, or one in which a
    game was just created or joined), whatever the replies to the loads and
    whether the socket opens or fails, is not connected and its interval
    does not run; and it stays so through every close, backoff reconnection,
    manual retry and click, until a frame of the server changes one of the
    two refs. *)
Theorem supervisor_idle_until_push s gid uid rG rB o es :
  isConnected s = false →
  Forall (λ e, no_push e = true) es →
  let w := run_events es (step (Mounted rG rB o) (setup s gid uid)) in
  isConnected (store w) = false ∧ wanted w = true ∧ active w = false.
Proof.
  intros Hs Hes. cbn zeta.
  assert (∀ w, isConnected (store w) = false → retryInterval (view w) = None →
               isConnected (store (run_events es w)) = false ∧
               retryInterval (view (run_events es w)) = None) as Hrun.
  { induction Hes as [|e es He _ IH]; intros w Hc Hr; [done|].
    cbn [run_events foldl]. fold (run_events es (step e w)).
    destruct (idle_step e w He Hc Hr) as [Hc' Hr']. by apply IH. }
  destruct (Hrun (step (Mounted rG rB o) (setup s gid uid))) as [Hc Hr].
  - by apply idle_step.
  - by apply idle_step.
  - split; [done|]. unfold wanted, active. by rewrite Hc, Hr.
Qed.

Lemma supervisor_idle_until_push_witness :
  let w := run_events [Closed; ReconnectTimer Opens; RetryClicked Fails;
                       CellClicked 1 1 (Resolved reply_O_next)]
             never_connected in
  isConnected (store w) = false ∧ wanted w = true ∧ active w = false.
Proof.
  apply (supervisor_idle_until_push Store.initial "g7" (Some "alice")
           (Resolved game) (Resolved (mkBoardData board_X00 None)) Fails
           [Closed; ReconnectTimer Opens; RetryClicked Fails;
            CellClicked 1 1 (Resolved reply_O_next)]).
  - reflexivity.
  - repeat constructor.
Defined.
End Supervisor.

(** ** Whose turn it is *)

Section Turns.
Import Store View GameStore Examples.

(** What an accepted submission tells: the gate was open, and the turn is
    now the one the authority named. *)
Lemma makeMove_accepted row col response w r :
  outcome (makeMove row col (Resolved response)) w = Return r →
  canMakeMove (store w) = true ∧
  currentPlayer (store (exec (makeMove row col (Resolved response)) w))
    = mr_next_turn response.
Proof.
  destruct_world w. unfold makeMove, makeMove_settle. mrun.
  destruct currentGame0; [|done].
  destruct (bool_decide _); [done|].
  destruct (canMakeMove _); [|done].
  by mrun.
Qed.

Lemma move_made_turn gid pid pos sym b wn gs w :
  currentPlayer
    (store (exec (run_listener GameWebSocket.on_move_made
                    (move_made gid pid pos sym b wn gs)) w))
    = Some (other sym).
Proof. destruct_world w. by mrun. Qed.

(** While the authority is consistent, the symbols that move alternate. *)
Lemma play_alternates moves : ∀ w t movers,
  currentPlayer (store w) = Some t →
  consistent_from t moves = true →
  play moves w = Some movers →
  alternates_from t movers = true.
Proof.
  induction moves as [|[sym b wn gs|row col response] rest IH];
    intros w t movers Ht Hc Hp; cbn [play consistent_from] in *.
  - by injection Hp as <-.
  - apply andb_true_iff in Hc as [Hsym Hc].
    apply bool_decide_eq_true_1 in Hsym. subst sym.
    destruct (play rest _) as [movers'|] eqn:Hrest; [|done].
    injection Hp as <-. cbn [alternates_from].
    rewrite bool_decide_eq_true_2 by done. cbn [andb].
    eapply IH; [|exact Hc|exact Hrest]. apply move_made_turn.
  - apply andb_true_iff in Hc as [Hnext Hc].
    apply bool_decide_eq_true_1 in Hnext.
    destruct (outcome _ w) as [r|] eqn:Hout; [|done].
    destruct (mySymbol (store w)) as [me|] eqn:Hme; [|done].
    destruct (play rest _) as [movers'|] eqn:Hrest; [|done].
    injection Hp as <-.
    destruct (makeMove_accepted _ _ _ _ _ Hout) as [Hcan Hturn].
    apply canMakeMove_true in Hcan as (_ & Hmine & _).
    apply isMyTurn_true in Hmine as (p & Hp1 & Hp2).
    assert (me = t) as -> by congruence.
    cbn [alternates_from]. rewrite bool_decide_eq_true_2 by done. cbn [andb].
    eapply IH; [|exact Hc|exact Hrest]. by rewrite Hturn.
Qed.

(** C8, as stated, fails: the turn after a move of the local player is the
    one the authority names, not the opposite symbol.  After the move of X
    that ends the game the reply names nobody, and the turn is [null]; and
    when a reply names X again, with the game ongoing, the turn stays with X
    and a second move of X in a row is accepted. *)
Lemma turn_repeats_when_authority_says_so :
  outcome (makeMove 0 2 (Resolved reply_X_wins)) alice_world
    = Return reply_X_wins ∧
  currentPlayer
    (store (exec (makeMove 0 2 (Resolved reply_X_wins)) alice_world))
    = None ∧
  currentPlayer
    (store (exec (makeMove 0 1 (Resolved reply_X_again)) alice_world))
    = Some X ∧
  play [Submitted 0 1 reply_X_again; Submitted 0 2 reply_O_next] alice_world
    = Some [X; X] ∧
  alternates_from X [X; X] = false.
Proof. repeat split. Qed.

(** C8 (amended): the start of the game gives the turn to X; a pushed move
    of symbol s gives it to the opposite of s; an accepted submission is a
    move of the symbol whose turn it was, and gives the turn to the symbol
    the authority names in its reply.  So, as long as the authority pushes
    moves of the symbol to move and names the opposite symbol in its
    replies, the symbols of the accepted moves alternate, from X on when the
    game has just started. *)
Theorem turn_follows_authority :
  (∀ gid st w,
     currentPlayer
       (store (exec (run_listener GameWebSocket.on_game_started
                       (game_started gid st)) w)) = Some X) ∧
  (∀ gid pid pos sym b wn gs w,
     currentPlayer
       (store (exec (run_listener GameWebSocket.on_move_made
                       (move_made gid pid pos sym b wn gs)) w))
       = Some (other sym)) ∧
  (∀ row col response w r,
     outcome (makeMove row col (Resolved response)) w = Return r →
     mySymbol (store w) = currentPlayer (store w) ∧
     currentPlayer (store (exec (makeMove row col (Resolved response)) w))
       = mr_next_turn response) ∧
  (∀ moves w t movers,
     currentPlayer (store w) = Some t →
     consistent_from t moves = true →
     play moves w = Some movers →
     alternates_from t movers = true).
Proof.
  split; [|split; [|split]].
  - intros gid st w. destruct_world w. by mrun.
  - intros. apply move_made_turn.
  - intros row col response w r Hout.
    destruct (makeMove_accepted _ _ _ _ _ Hout) as [Hcan Hturn].
    split; [|done].
    apply canMakeMove_true in Hcan as (_ & Hmine & _).
    apply isMyTurn_true in Hmine as (p & Hp1 & Hp2). congruence.
  - intros moves. apply play_alternates.
Qed.

Lemma turn_follows_authority_witness :
  play [Submitted 0 1 reply_O_next;
        Pushed O [ [Some X; Some X; None]; [Some O; None; None];
                   [None; None; None] ] None "ongoing";
        Submitted 0 2 reply_O_next] alice_world = Some [X; O; X] ∧
  alternates_from X [X; O; X] = true.
Proof.
  split; [reflexivity|].
  apply (proj2 (proj2 (proj2 turn_follows_authority))
           [Submitted 0 1 reply_O_next;
            Pushed O [ [Some X; Some X; None]; [Some O; None; None];
                       [None; None; None] ] None "ongoing";
            Submitted 0 2 reply_O_next]
           alice_world X [X; O; X]); reflexivity.
Defined.
End Turns.

(** ** Room commands *)

Section RoomCommands.
Import Store View GameStore GameView Examples.

Ltac fin_effects :=
  rewrite <- ?app_assoc, ?drop_log, ?drop_log_nil; try reflexivity.

(** The backoff reconnection of the socket opens a transport and sends
    nothing. *)
Lemma reconnect_sends_nothing o w :
  room_commands (effects (reconnect o) w) = [].
Proof.
  destruct_world w. unfold reconnect.
  destruct o, ws0 as [g|]; msteps; fin_effects.
Qed.

Lemma initializeGame_room_command g b w :
  room_commands (effects (initializeGame (Resolved g) (Resolved b) Opens) w)
    = match mySymbol
              (store (exec (initializeGame (Resolved g) (Resolved b) Opens) w))
      with
      | Some s => [command_of s (gameId (view w))]
      | None => []
      end.
Proof.
  destruct_world w. unfold initializeGame, loadGame, or_undefined.
  destruct ws0 as [[[rs|] a ls]|]; msteps.
  all: bool_facts; try done.
  all: fin_effects.
Qed.

Lemma retryConnection_room_command w :
  room_commands (effects (retryConnection Opens) w)
    = match mySymbol (store w) with
      | Some s =>
          if bool_decide (gameId (view w) = "") then []
          else [command_of s (gameId (view w))]
      | None => []
      end.
Proof.
  destruct_world w. unfold retryConnection. mrun.
  destruct ws0 as [[[rs|] a ls]|], mySymbol0 as [[|]|];
    msteps; bool_facts; try done; fin_effects.
Qed.

(** A tick that finds [isConnected] true calls the room command again; it
    is sent if the transport of the socket is open. *)
Lemma tick_room_command o w :
  isConnected (store w) = true →
  room_commands (effects (tick o) w) =
    match ws (store w), mySymbol (store w) with
    | Some g, Some s =>
        if GameWebSocket.isConnected g
           && negb (bool_decide (gameId (view w) = ""))
        then [command_of s (gameId (view w))]
        else []
    | _, _ => []
    end.
Proof.
  destruct_world w. unfold tick. mrun. intros ->.
  destruct ws0 as [[[[| | |]|] att ls]|], mySymbol0 as [[|]|];
    msteps; bool_facts; try done; fin_effects.
Qed.



End RoomCommands.

(** ** Scenarios *)

Section Scenarios.
Import Store View GameStore GameView Examples.

(** X created the game and nobody joined: one player in the room, and the
    supervisor runs. *)
Example alone_in_the_room :
  playersInRoom (store alice_alone) = 1%Z ∧ active alice_alone = true.
Proof. vm_compute. split; reflexivity. Qed.

(** The second player joins: the push with two players stops the supervisor;
    the start of the game makes it ongoing, with X to move. *)
Example second_player_joins :
  let w := step (Frame (Some (player_joined "g7" 2))) alice_alone in
  let w' := step (Frame (Some (game_started "g7" "ongoing"))) w in
  active w = false ∧
  gameStatus (store w') = "ongoing" ∧ currentPlayer (store w') = Some X.
Proof. vm_compute. repeat split. Qed.

(** O clicks a free cell while X is to move: nothing is sent and nothing
    changes. *)
Example move_out_of_turn :
  exec (TicTacToeBoard.handleCellClick 1 1 (Resolved reply_O_next)) bob_world
    = bob_world ∧
  outcome (makeMove 1 1 (Resolved reply_O_next)) bob_world
    = Throw (Error "It is not your turn").
Proof. vm_compute. split; reflexivity. Qed.

(** X moves on a free cell and the authority accepts: the board is the one of
    the reply and the turn passes to O. *)
Example accepted_move :
  let w := exec (makeMove 0 1 (Resolved reply_O_next)) alice_world in
  board (store w) = mr_board reply_O_next ∧
  currentPlayer (store w) = Some O ∧
  log w = [Fetch (api_makeMove "g7" "alice" "0,1")].
Proof. vm_compute. repeat split. Qed.

(** The transport closes in a game with two players: the socket starts its
    backoff, the store still says connected, and the supervisor stays idle. *)
Example transport_closes :
  let w := step Closed alice_connected in
  log w = log alice_connected ++ [SetTimeout 1000] ∧
  isConnected (store w) = true ∧ active w = false.
Proof. vm_compute. repeat split. Qed.
End Scenarios.

(** * Further properties of the code *)

(** ** The registry of listeners and the teardown of a socket *)

Section Registry.
Import GameWebSocket SocketLife.

Lemma elem_of_set_add cb (l : list Listener) : cb ∈ set_add cb l.
Proof.
  unfold set_add. case_bool_decide; [done|]. apply elem_of_app. right.
  by apply list_elem_of_singleton.
Qed.

Lemma set_add_idemp cb (l : list Listener) :
  set_add cb (set_add cb l) = set_add cb l.
Proof.
  unfold set_add at 1. rewrite bool_decide_eq_true_2; [done|].
  apply elem_of_set_add.
Qed.

Lemma set_add_NoDup cb (l : list Listener) : NoDup l → NoDup (set_add cb l).
Proof.
  intros Hl. unfold set_add. case_bool_decide; [done|].
  apply NoDup_app. split; [done|]. split; [|apply NoDup_singleton].
  intros x Hx Hcb. apply list_elem_of_singleton in Hcb. by subst.
Qed.

(** The listeners of a tag after [on] *)
Lemma on_listeners messageType cb g k :
  default [] (listeners (on messageType cb g) !! k) =
    if decide (messageType = k) then set_add cb (default [] (listeners g !! k))
    else default [] (listeners g !! k).
Proof.
  unfold on. cbn [listeners set_listeners]. rewrite lookup_alter.
  destruct (decide (messageType = k)) as [->|Hne].
  - destruct (listeners g !! k) as [l|] eqn:Hk.
    + by rewrite Hk.
    + by rewrite lookup_insert_eq.
  - destruct (listeners g !! messageType); [done|].
    by rewrite lookup_insert_ne.
Qed.

(** X1: [on] adds the callback to the listeners of its tag, once: a message
    of that tag is dispatched to the callbacks that were registered, in their
    order, followed by the new one unless it was among them; the messages of
    the other tags are dispatched as before; registering the same callback
    again changes nothing, and no callback is ever listed twice. *)
Theorem on_registers_once messageType cb g m :
  handleMessage m (on messageType cb g) =
    (if decide (messageType = type m) then set_add cb (handleMessage m g)
     else handleMessage m g) ∧
  (cb ∈ handleMessage m (on (type m) cb g)) ∧
  handleMessage m (on messageType cb (on messageType cb g))
    = handleMessage m (on messageType cb g) ∧
  (NoDup (handleMessage m g) → NoDup (handleMessage m (on messageType cb g))).
Proof.
  unfold handleMessage. split; [apply on_listeners|]. split; [|split].
  - rewrite on_listeners. rewrite decide_True by done. apply elem_of_set_add.
  - rewrite !on_listeners. case_decide; [|done]. apply set_add_idemp.
  - intros Hnd. rewrite on_listeners. case_decide; [|done].
    by apply set_add_NoDup.
Qed.

Lemma on_registers_once_witness :
  handleMessage (game_started "g7" "ongoing")
    (on "game_started" on_game_started (on "game_started" on_move_made new))
  = [on_move_made; on_game_started] ∧
  NoDup (handleMessage (game_started "g7" "ongoing")
           (on "game_started" on_game_started new)).
Proof.
  split; [by vm_compute|].
  apply (proj2 (proj2 (proj2 (on_registers_once "game_started" on_game_started
                                new (game_started "g7" "ongoing"))))).
  vm_compute. apply NoDup_nil_2.
Defined.

Lemma filter_ne_id cb (l : list Listener) :
  cb ∉ l → filter (λ c, c ≠ cb) l = l.
Proof.
  induction l as [|x l IH]; [done|]. intros Hcb.
  apply not_elem_of_cons in Hcb as [Hx Hl].
  rewrite filter_cons_True by done. by rewrite IH.
Qed.

(** The listeners of a tag after [off] *)
Lemma off_listeners messageType cb g k :
  default [] (listeners (off messageType cb g) !! k) =
    if decide (messageType = k)
    then filter (λ c, c ≠ cb) (default [] (listeners g !! k))
    else default [] (listeners g !! k).
Proof.
  unfold off. destruct (listeners g !! messageType) as [l|] eqn:Ht.
  - cbn [listeners set_listeners]. rewrite lookup_alter.
    case_decide; [|done]. subst. by rewrite Ht.
  - case_decide; [|done]. subst. by rewrite Ht.
Qed.

(** X2: [off] removes the callback from the listeners of its tag and from
    these only: afterwards a message of that tag is dispatched to the other
    callbacks, in their order, and never to the removed one; on a tag that
    has no listeners it does nothing; and unregistering what was just
    registered gives back the dispatch there was. *)
Theorem off_unregisters messageType cb g m :
  handleMessage m (off messageType cb g) =
    (if decide (messageType = type m)
     then filter (λ c, c ≠ cb) (handleMessage m g)
     else handleMessage m g) ∧
  (cb ∉ handleMessage m (off (type m) cb g)) ∧
  (listeners g !! messageType = None → off messageType cb g = g) ∧
  (cb ∉ handleMessage m g →
   handleMessage m (off messageType cb (on messageType cb g)) = handleMessage m g).
Proof.
  unfold handleMessage. split; [apply off_listeners|]. split; [|split].
  - rewrite off_listeners, decide_True by done.
    rewrite list_elem_of_filter. tauto.
  - intros Hnone. unfold off. by rewrite Hnone.
  - intros Hcb. rewrite off_listeners, on_listeners.
    case_decide; [|done]. unfold set_add.
    rewrite bool_decide_eq_false_2 by done.
    rewrite filter_app, filter_cons_False, filter_nil, app_nil_r by tauto.
    by apply filter_ne_id.
Qed.

Lemma off_unregisters_witness :
  off "move_made" on_move_made new = new ∧
  handleMessage (game_started "g7" "ongoing")
    (off "game_started" on_game_started
       (on "game_started" on_game_started
          (on "game_started" on_move_made new)))
  = [on_move_made].
Proof.
  split.
  - apply (proj1 (proj2 (proj2 (off_unregisters "move_made" on_move_made new
                                  (game_started "g7" "ongoing"))))).
    reflexivity.
  - rewrite (proj2 (proj2 (proj2 (off_unregisters "game_started" on_game_started
               (on "game_started" on_move_made new)
               (game_started "g7" "ongoing"))))); [by vm_compute|].
    vm_compute. intros H. apply list_elem_of_singleton in H. discriminate.
Defined.

(** X3: [disconnect] is a full teardown: the object is left without a
    transport and without any listener, so that it sends nothing and
    dispatches nothing afterwards; the transport is closed if and only if
    there was one; the counter of attempts is not touched; and a second
    [disconnect] does nothing. *)
Theorem disconnect_tears_down g m :
  ws (fst (disconnect g)) = None ∧
  listeners (fst (disconnect g)) = ∅ ∧
  handleMessage m (fst (disconnect g)) = [] ∧
  send m (fst (disconnect g)) = [] ∧
  isConnected (fst (disconnect g)) = false ∧
  reconnectAttempts (fst (disconnect g)) = reconnectAttempts g ∧
  snd (disconnect g) = match ws g with Some _ => [SocketClose] | None => [] end ∧
  disconnect (fst (disconnect g)) = (fst (disconnect g), []).
Proof.
  destruct g as [[rs|] a ls]; repeat split.
Qed.

(** X4: [disconnect] does not detach the callbacks of the transport it
    closes.  When the close of that transport is reported, [onclose] runs as
    after any close: below the cap it starts the backoff timer, and the
    timer opens a new transport on the object that was torn down, which has
    no listener left. *)
Theorem disconnect_then_close_reconnects g :
  (reconnectAttempts g < maxReconnectAttempts)%nat →
  snd (onclose (fst (disconnect g)))
    = [SetTimeout (1000 * S (reconnectAttempts g))] ∧
  snd (reconnect_timer (fst (onclose (fst (disconnect g))))) = [NewWebSocket] ∧
  ws (fst (reconnect_timer (fst (onclose (fst (disconnect g))))))
    = Some CONNECTING ∧
  ∀ m, handleMessage m
         (fst (reconnect_timer (fst (onclose (fst (disconnect g)))))) = [].
Proof.
  intros Hlt. unfold onclose.
  rewrite attemptReconnect_below
    by (destruct g as [[rs|] a ls]; exact Hlt).
  destruct g as [[rs|] a ls]; repeat split.
Qed.

Lemma disconnect_then_close_reconnects_witness :
  snd (onclose (fst (disconnect (onopen (fst (connect new))))))
    = [SetTimeout 1000].
Proof.
  assert (reconnectAttempts (onopen (fst (connect new)))
          < maxReconnectAttempts)%nat as H by (vm_compute; lia).
  exact (proj1 (disconnect_then_close_reconnects
                  (onopen (fst (connect new))) H)).
Defined.

Lemma delays_app l1 l2 : delays (l1 ++ l2) = delays l1 ++ delays l2.
Proof. unfold delays. apply omap_app. Qed.

Lemma call_bounded c g :
  (reconnectAttempts g ≤ maxReconnectAttempts)%nat →
  (reconnectAttempts (fst (call c g)) ≤ maxReconnectAttempts)%nat ∧
  Forall backoff_delay (delays (snd (call c g))).
Proof.
  intros Hle. destruct c; cbn [call].
  - split; [exact Hle|apply Forall_nil_2].
  - split; [apply Nat.le_0_l|apply Forall_nil_2].
  - split; [exact Hle|apply Forall_nil_2].
  - unfold onclose.
    destruct (decide (reconnectAttempts g < maxReconnectAttempts)%nat) as [Hlt|Hge].
    + rewrite attemptReconnect_below by exact Hlt.
      cbn [fst snd set_ws set_reconnectAttempts reconnectAttempts].
      split; [lia|].
      apply Forall_cons. split; [|apply Forall_nil_2].
      exists (S (reconnectAttempts g)). split; [lia|done].
    + rewrite attemptReconnect_at_cap
        by (cbn [set_ws reconnectAttempts]; lia).
      split; [exact Hle|apply Forall_nil_2].
  - split; [exact Hle|apply Forall_nil_2].
  - split; [exact Hle|apply Forall_nil_2].
  - split; [|apply Forall_nil_2]. unfold off.
    destruct (listeners g !! messageType); exact Hle.
  - split; [exact Hle|]. unfold send. cbn [snd].
    case_bool_decide; apply Forall_nil_2.
  - destruct g as [[rs|] a ls]; (split; [exact Hle|apply Forall_nil_2]).
Qed.

Lemma calls_bounded cs : ∀ g,
  (reconnectAttempts g ≤ maxReconnectAttempts)%nat →
  (reconnectAttempts (fst (calls cs g)) ≤ maxReconnectAttempts)%nat ∧
  Forall backoff_delay (delays (snd (calls cs g))).
Proof.
  induction cs as [|c cs IH]; intros g Hle; cbn [calls].
  - split; [done|apply Forall_nil_2].
  - destruct (call_bounded c g Hle) as [H1 H2].
    destruct (call c g) as [g1 e1]. cbn [fst snd] in *.
    destruct (IH g1 H1) as [H3 H4].
    destruct (calls cs g1) as [g2 e2]. cbn [fst snd] in *.
    split; [done|]. rewrite delays_app. by apply Forall_app.
Qed.

(** X5: whatever is called on a socket object, in whatever order (methods,
    callbacks of the transport, the reconnection timer), its counter of
    attempts never exceeds 5, and every reconnection timer it starts waits
    1000, 2000, 3000, 4000 or 5000. *)
Theorem attempts_never_exceed_cap cs :
  (reconnectAttempts (fst (calls cs new)) ≤ 5)%nat ∧
  Forall (λ d, d ∈ [1000; 2000; 3000; 4000; 5000])
         (delays (snd (calls cs new))).
Proof.
  destruct (calls_bounded cs new) as [Ha Hd];
    [cbn; unfold maxReconnectAttempts; lia|].
  split; [exact Ha|]. eapply Forall_impl; [exact Hd|].
  intros d (k & [Hk1 Hk2] & ->). unfold maxReconnectAttempts in Hk2.
  assert (k = 1 ∨ k = 2 ∨ k = 3 ∨ k = 4 ∨ k = 5)%nat as Hk by lia.
  destruct Hk as [->|[->|[->|[->| ->]]]]; vm_compute;
    repeat (first [apply list_elem_of_here | apply list_elem_of_further]).
Qed.
End Registry.

(** ** The store and its socket *)

Section StoreSocket.
Import Store View GameStore GameView Examples.

Ltac fin_log := rewrite <- ?app_assoc, ?app_nil_r, ?drop_log, ?drop_log_nil.

(** What [connectWebSocket] does, in one equation *)
Lemma connectWebSocket_result w :
  connectWebSocket w =
    (Return tt,
     mkWorld (set_isConnected false (set_ws (Some registered_socket) (store w)))
             (view w) (next_handle w)
             (log w ++
              match ws (store w) with
              | Some g => snd (GameWebSocket.disconnect g)
              | None => []
              end ++ [NewWebSocket])).
Proof.
  destruct_world w. unfold connectWebSocket, registered_socket.
  destruct ws0 as [[[rs|] a ls]|]; mrun_ws; fin_log; reflexivity.
Qed.

Lemma registered_socket_dispatch m :
  GameWebSocket.handleMessage m registered_socket =
    match m with
    | room_created _ _ => [GameWebSocket.on_room_created]
    | room_joined _ _ => [GameWebSocket.on_room_joined]
    | player_joined _ _ => [GameWebSocket.on_player_joined]
    | game_started _ _ => [GameWebSocket.on_game_started]
    | move_made _ _ _ _ _ _ _ => [GameWebSocket.on_move_made]
    | create_room _ | join_room _ => []
    end.
Proof. destruct m; vm_compute; reflexivity. Qed.



(** X7: after [connectWebSocket], each frame that arrives goes to the one
    listener of its tag: [room_created] and [room_joined] set the number of
    players and mark the store connected; [player_joined] sets the number of
    players only; [game_started] makes the game ongoing with X to move,
    whatever status the message carries; [move_made] replaces the board, the
    winner and the status by those of the message and gives the turn to the
    opposite of the symbol that moved; an echo of a room command and a
    frame that does not parse change nothing. *)
Theorem pushes_after_connect w frame :
  outcome (onmessage frame) (exec connectWebSocket w) = Return tt ∧
  store (exec (onmessage frame) (exec connectWebSocket w)) =
    match frame with
    | Some (room_created _ n) | Some (room_joined _ n) =>
        set_isConnected true
          (set_playersInRoom n (store (exec connectWebSocket w)))
    | Some (player_joined _ n) =>
        set_playersInRoom n (store (exec connectWebSocket w))
    | Some (game_started _ _) =>
        set_currentPlayer (Some X)
          (set_gameStatus "ongoing" (store (exec connectWebSocket w)))
    | Some (move_made _ _ _ sym b wn gs) =>
        set_currentPlayer (Some (other sym))
          (set_gameStatus gs
             (set_winner wn
                (set_board b (store (exec connectWebSocket w)))))
    | Some (create_room _) | Some (join_room _) | None =>
        store (exec connectWebSocket w)
    end.
Proof.
  unfold outcome, exec. rewrite connectWebSocket_result. cbn [snd].
  destruct frame as [m|]; [|done].
  unfold onmessage. mrun.
  rewrite registered_socket_dispatch. destruct m; split; reflexivity.
Qed.
(** Quiet actions compose. *)
Lemma quiet_mret : quiet (mret tt).
Proof. intros w. exists (store w). by destruct w. Qed.

Lemma quiet_bind (m k : M unit) : quiet m → quiet k → quiet (m;; k).
Proof.
  intros Hm Hk w. destruct (Hm w) as (s1 & E1 & I1).
  unfold mbind, M_bind. rewrite E1.
  destruct (Hk (mkWorld s1 (view w) (next_handle w) (log w))) as (s2 & E2 & I2).
  exists s2. split; [exact E2|]. cbn [store] in I2. congruence.
Qed.

Lemma quiet_modify_store g :
  (∀ s, identity (g s) = identity s) → quiet (modify_store g).
Proof. intros Hg w. exists (g (store w)). split; [done|apply Hg]. Qed.

Lemma quiet_run_listener l m : quiet (run_listener l m).
Proof.
  destruct l, m; cbn [run_listener];
    repeat first [apply quiet_mret | apply quiet_bind
                 | apply quiet_modify_store; intros s; reflexivity].
Qed.

Lemma quiet_onmessage frame : quiet (onmessage frame).
Proof.
  destruct frame as [m|]; [|apply quiet_mret].
  intros w. unfold onmessage, mbind, M_bind, get_store.
  destruct (ws (store w)) as [g|]; [|apply quiet_mret].
  induction (GameWebSocket.handleMessage m g) as [|l ls IH]; cbn [foldr].
  - apply quiet_mret.
  - apply (quiet_bind _ _ (quiet_run_listener l m)). intros w'.
    clear IH. revert w'. induction ls as [|l' ls IH']; cbn [foldr].
    + apply quiet_mret.
    + apply (quiet_bind _ _ (quiet_run_listener l' m) IH').
Qed.

(** X8: a frame that arrives, whatever it holds and whatever listeners are
    registered, never throws, sends and logs nothing, leaves the view alone,
    and never changes the game, the ids of the players, the local player id
    and symbol, or the socket: pushes only write the board, the winner, the
    status, the turn, the number of players and the connected flag. *)
Theorem push_is_quiet frame w :
  outcome (onmessage frame) w = Return tt ∧
  effects (onmessage frame) w = [] ∧
  view (exec (onmessage frame) w) = view w ∧
  currentGame (store (exec (onmessage frame) w)) = currentGame (store w) ∧
  playerXId (store (exec (onmessage frame) w)) = playerXId (store w) ∧
  playerOId (store (exec (onmessage frame) w)) = playerOId (store w) ∧
  myPlayerId (store (exec (onmessage frame) w)) = myPlayerId (store w) ∧
  mySymbol (store (exec (onmessage frame) w)) = mySymbol (store w) ∧
  ws (store (exec (onmessage frame) w)) = ws (store w).
Proof.
  destruct (quiet_onmessage frame w) as (s' & E & I).
  unfold outcome, effects, exec. rewrite E. cbn [fst snd store view log].
  injection I as I1 I2 I3 I4 I5 I6. rewrite drop_log_nil. done.
Qed.

(** X9: when [loadGame] fails.  If the game cannot be fetched the store is
    as before and the board is not requested; if the game is fetched and the
    board cannot be, the error of the board is thrown after the game, the
    ids of the players and the status have been written, the board, the
    winner and the turn being as before.  In no case is the turn written. *)
Theorem loadGame_failures gameId uid g e rBoard w :
  (outcome (loadGame gameId uid (Rejected e) rBoard) w = Throw e ∧
   store (exec (loadGame gameId uid (Rejected e) rBoard) w) = store w ∧
   effects (loadGame gameId uid (Rejected e) rBoard) w
     = [Fetch (api_getGame gameId)]) ∧
  (outcome (loadGame gameId uid (Resolved g) (Rejected e)) w = Throw e ∧
   effects (loadGame gameId uid (Resolved g) (Rejected e)) w
     = [Fetch (api_getGame gameId); Fetch (api_getBoard gameId)] ∧
   currentGame (store (exec (loadGame gameId uid (Resolved g) (Rejected e)) w))
     = Some g ∧
   gameStatus (store (exec (loadGame gameId uid (Resolved g) (Rejected e)) w))
     = status g ∧
   board (store (exec (loadGame gameId uid (Resolved g) (Rejected e)) w))
     = board (store w) ∧
   winner (store (exec (loadGame gameId uid (Resolved g) (Rejected e)) w))
     = winner (store w)) ∧
  currentPlayer (store (exec (loadGame gameId uid (Resolved g) rBoard) w))
    = currentPlayer (store w).
Proof.
  destruct_world w. unfold loadGame. split; [|split].
  - mrun. by fin_log.
  - destruct uid as [u|]; mrun_ws;
      repeat (destruct (bool_decide _); mrun_ws); fin_log; done.
  - destruct uid as [u|], rBoard as [b|e']; mrun_ws;
      repeat (destruct (bool_decide _); mrun_ws); done.
Qed.
(** A click that the board component refuses does nothing at all. *)
Lemma refused_click_does_nothing row col r w :
  canMakeMove (store w) = false ∨ occupied (board (store w)) row col →
  outcome (TicTacToeBoard.handleCellClick row col r) w = Return tt ∧
  exec (TicTacToeBoard.handleCellClick row col r) w = w ∧
  effects (TicTacToeBoard.handleCellClick row col r) w = [].
Proof.
  intros H.
  assert (TicTacToeBoard.handleCellClick row col r w = (Return tt, w)) as Hc.
  { destruct_world w. unfold TicTacToeBoard.handleCellClick. mrun.
    destruct (canMakeMove _) eqn:Hcan; simpl; [|done].
    destruct H as [?|(cells & c & Hrow & Hcol)]; [done|].
    by rewrite Hrow, Hcol. }
  unfold effects, outcome, exec. rewrite Hc. simpl.
  split; [done|]. split; [done|]. apply drop_log_nil.
Qed.

(** The turn is written by the pushes and by an accepted move only. *)
Lemma currentPlayer_on_ws f : preserves (of_store currentPlayer) (on_ws f).
Proof. unfold on_ws. preserve. Qed.
Hint Resolve currentPlayer_on_ws : preserve.

Lemma currentPlayer_connectWebSocket :
  preserves (of_store currentPlayer) connectWebSocket.
Proof. unfold connectWebSocket. preserve. Qed.

Lemma currentPlayer_await_connect o :
  preserves (of_store currentPlayer) (await_connect o).
Proof. unfold await_connect. preserve. Qed.

Lemma currentPlayer_send m :
  preserves (of_store currentPlayer) (send_if_connected m).
Proof. unfold send_if_connected. preserve. Qed.

Lemma currentPlayer_loadGame gid uid rG rB :
  preserves (of_store currentPlayer) (loadGame gid uid rG rB).
Proof. unfold loadGame. preserve. Qed.
Hint Resolve currentPlayer_connectWebSocket currentPlayer_await_connect
  currentPlayer_send currentPlayer_loadGame : preserve.

Lemma currentPlayer_initializeGame rG rB o :
  preserves (of_store currentPlayer) (initializeGame rG rB o).
Proof. unfold initializeGame, createRoom, joinRoom. preserve. Qed.

(** X10: mounting the game view never writes the turn: [loadGame] fetches
    the game and the board, and nothing tells who is to move.  So after a
    fresh load of a game, whatever the replies are (an ongoing game of which
    the user is a player included), no move can be submitted until a push
    arrives. *)
Theorem mount_leaves_turn_unknown rG rB o :
  (∀ w, currentPlayer (store (step (Mounted rG rB o) w))
        = currentPlayer (store w)) ∧
  (∀ gid uid,
     canMakeMove (store (step (Mounted rG rB o) (setup Store.initial gid uid)))
       = false ∧
     ∀ row col r,
       requests (effects (TicTacToeBoard.handleCellClick row col r)
                   (step (Mounted rG rB o) (setup Store.initial gid uid))) = []).
Proof.
  assert (∀ w, currentPlayer (store (step (Mounted rG rB o) w))
               = currentPlayer (store w)) as Hturn.
  { intros w. unfold step. cbn [mounted].
    pose proof (of_store_with_watch currentPlayer _
                  currentPlayer_connectWebSocket) as Hc.
    assert (preserves (of_store currentPlayer)
              (initializeGame_with (with_watch connectWebSocket) rG rB o)) as H.
    { unfold initializeGame_with, createRoom, joinRoom. preserve. }
    apply (H w). }
  split; [exact Hturn|]. intros gid uid.
  assert (canMakeMove (store (step (Mounted rG rB o)
                                (setup Store.initial gid uid))) = false) as Hcan.
  { unfold canMakeMove, isMyTurn. rewrite Hturn. cbn.
    by destruct (bool_decide _). }
  split; [exact Hcan|]. intros row col r.
  destruct (refused_click_does_nothing row col r _ (or_introl Hcan))
    as (_ & _ & ->).
  done.
Qed.

Lemma step_without_change e w :
  (∀ rG rB o, e ≠ Mounted rG rB o) → (∀ o, e ≠ RetryClicked o) →
  watched (exec (handler e) w) = watched w → step e w = exec (handler e) w.
Proof.
  intros Hm Hr H. unfold step.
  assert (mounted e = with_watch (handler e)) as ->.
  { destruct e; try reflexivity; [by destruct (Hm rGame rBoard o)|].
    by destruct (Hr o). }
  by apply with_watch_without_change.
Qed.

(** X11: the store does not learn that its transport closed.  Neither the
    close of the transport nor the backoff reconnection of the socket (opened
    or failed) writes [isConnected] or [playersInRoom]: a store that said
    connected still says so, the watcher does not run, and the view with its
    retry interval is exactly as before. *)
Theorem close_leaves_connected_flag w :
  (isConnected (store (step Closed w)) = isConnected (store w) ∧
   playersInRoom (store (step Closed w)) = playersInRoom (store w) ∧
   view (step Closed w) = view w) ∧
  (∀ o,
     isConnected (store (step (ReconnectTimer o) w)) = isConnected (store w) ∧
     playersInRoom (store (step (ReconnectTimer o) w))
       = playersInRoom (store w) ∧
     view (step (ReconnectTimer o) w) = view w).
Proof.
  split; [|intros o].
  - pose proof (flags_onclose w) as Hf.
    rewrite (step_without_change Closed w) by done. cbn [handler].
    injection Hf as H1 H2. split; [exact H1|]. split; [exact H2|].
    apply (view_onclose (λ v, v) w).
  - pose proof (flags_reconnect o w) as Hf.
    rewrite (step_without_change (ReconnectTimer o) w) by done.
    cbn [handler].
    injection Hf as H1 H2. split; [exact H1|]. split; [exact H2|].
    apply (view_reconnect (λ v, v) o w).
Qed.

(** Decimal numerals have no comma. *)
Lemma pretty_N_char_no_comma x : pretty_N_char x ≠ ","%char.
Proof. unfold pretty_N_char. by repeat case_match. Qed.

Lemma pretty_N_go_comma_free x s :
  comma_free s → comma_free (pretty_N_go x s).
Proof.
  revert s. induction (N.lt_wf_0 x) as [x _ IH]; intros s Hs.
  assert (x = 0 ∨ 0 < x)%N as [->|Hx] by lia.
  - by rewrite pretty_N_go_0.
  - rewrite pretty_N_go_step by done. apply IH.
    { by apply N.div_lt. }
    split; [apply pretty_N_char_no_comma|done].
Qed.

Lemma pretty_nat_comma_free (n : nat) : comma_free (pretty n).
Proof.
  unfold pretty, pretty_nat, pretty, pretty_N.
  case_decide; [by repeat split|]. by apply pretty_N_go_comma_free.
Qed.

(** The first comma of a string splits it in one way. *)
Lemma comma_split a : ∀ a' b b',
  comma_free a → comma_free a' →
  a +:+ "," +:+ b = a' +:+ "," +:+ b' → a = a' ∧ b = b'.
Proof.
  induction a as [|c a IH]; intros [|c' a'] b b' Ha Ha' E; cbn in *.
  - inversion E. by subst.
  - inversion E. subst. by destruct Ha' as [? _].
  - inversion E. subst. by destruct Ha as [? _].
  - inversion E as [[Hc E']]. subst. destruct Ha as [_ Ha], Ha' as [_ Ha'].
    destruct (IH a' b b' Ha Ha' E') as [-> ->]. done.
Qed.

(** X12: the position sent to the authority names the cell without
    ambiguity.  For rows and columns that are safe integers (where the
    template string prints the decimal digits of the number), two
    submissions send the same request if and only if they were made for the
    same row and the same column: different cells never share a position,
    also beyond the board. *)
Theorem position_is_injective row col row' col' r r' w rq rq' :
  safe_integer row → safe_integer col →
  safe_integer row' → safe_integer col' →
  requests (effects (makeMove row col r) w) = [rq] →
  requests (effects (makeMove row' col' r') w) = [rq'] →
  rq = rq' ↔ row = row' ∧ col = col'.
Proof.
  intros _ _ _ _.
  destruct_world w. unfold makeMove, makeMove_settle. mrun.
  destruct currentGame0 as [g|]; [|by rewrite drop_log_nil].
  destruct (bool_decide _); [by rewrite drop_log_nil|].
  destruct (canMakeMove _); cbn [negb]; [|by rewrite drop_log_nil].
  destruct r, r'; mrun; rewrite !drop_log; cbn.
  all: intros [= <-] [= <-]; split; [|by intros [-> ->]].
  all: intros [= E];
    destruct (comma_split _ _ _ _ (pretty_nat_comma_free row)
                (pretty_nat_comma_free row') E) as [E1 E2];
    by apply (inj pretty) in E1, E2.
Qed.

Lemma position_is_injective_witness :
  requests (effects (makeMove 1 23 (Resolved reply_O_next)) alice_world)
    = [api_makeMove "g7" "alice" "1,23"] ∧
  requests (effects (makeMove 12 3 (Resolved reply_O_next)) alice_world)
    = [api_makeMove "g7" "alice" "12,3"] ∧
  api_makeMove "g7" "alice" "1,23" ≠ api_makeMove "g7" "alice" "12,3".
Proof.
  assert (requests (effects (makeMove 1 23 (Resolved reply_O_next)) alice_world)
          = [api_makeMove "g7" "alice" "1,23"]) as H1 by (by vm_compute).
  assert (requests (effects (makeMove 12 3 (Resolved reply_O_next)) alice_world)
          = [api_makeMove "g7" "alice" "12,3"]) as H2 by (by vm_compute).
  assert (∀ n, (n ≤ 23)%nat → safe_integer n) as Hs
    by (intros n Hn; unfold safe_integer; lia).
  split; [exact H1|]. split; [exact H2|]. intros E.
  apply (position_is_injective 1 23 12 3 _ _ alice_world _ _
           (Hs 1 ltac:(lia)) (Hs 23 ltac:(lia))
           (Hs 12 ltac:(lia)) (Hs 3 ltac:(lia)) H1 H2) in E.
  destruct E as [E _]. discriminate E.
Defined.
End StoreSocket.

(** ** What the board shows *)

Section BoardShows.
Import Store View GameStore GameView BoardView Examples.

Ltac fin_log := rewrite <- ?app_assoc, ?app_nil_r, ?drop_log, ?drop_log_nil.

(** Membership in a list that is written out *)
Ltac elems :=
  repeat match goal with
  | H : _ ∈ _ :: _ |- _ =>
      apply elem_of_cons in H as [H|H]; [try discriminate H|]
  | H : _ ∈ [] |- _ => by apply elem_of_nil in H
  end.

(** A click on a cell that is shown as clickable does something. *)
Lemma open_click_has_effects row col r w cells :
  canMakeMove (store w) = true →
  board (store w) !! row = Some cells → cells !! col = Some None →
  effects (TicTacToeBoard.handleCellClick row col r) w ≠ [].
Proof.
  intros Hcan Hrow Hcol. destruct_world w.
  unfold TicTacToeBoard.handleCellClick, makeMove, makeMove_settle. mrun.
  rewrite Hcan. cbn [negb]. rewrite Hrow, Hcol.
  destruct currentGame0 as [g|]; mrun; fin_log; [|done].
  destruct (bool_decide _); mrun; fin_log; [done|].
  rewrite Hcan. cbn [negb]. destruct r; mrun; fin_log; done.
Qed.

(** X13: the board offers a click exactly where a click acts.  For a cell
    of a row of the board, the class [cell-clickable] is given if and only
    if [handleCellClick] on that cell does something (it calls [makeMove],
    which sends the move or fails with an alert); a cell that is clickable
    is never shown as X or O, and a cell is never shown as both. *)
Theorem clickable_iff_click_acts row col r w cells :
  board (store w) !! row = Some cells →
  ∃ classes,
    cell_classes row col (store w) = Return classes ∧
    ("cell-clickable" ∈ classes ↔
       effects (TicTacToeBoard.handleCellClick row col r) w ≠ []) ∧
    ("cell-clickable" ∈ classes →
       ("cell-x" ∉ classes) ∧ ("cell-o" ∉ classes)) ∧
    ¬ ("cell-x" ∈ classes ∧ "cell-o" ∈ classes).
Proof.
  intros Hrow. unfold cell_classes. rewrite Hrow. eexists. split; [done|].
  assert (effects (TicTacToeBoard.handleCellClick row col r) w ≠ [] ↔
          canMakeMove (store w) = true ∧ cells !! col = Some None) as ->.
  { destruct (canMakeMove (store w)) eqn:Hcan.
    - destruct (cells !! col) as [[c|]|] eqn:Hcol.
      + assert (occupied (board (store w)) row col) as Hocc
          by (exists cells, c; split; [exact Hrow|exact Hcol]).
        destruct (refused_click_does_nothing row col r w (or_intror Hocc))
          as (_ & _ & ->).
        split; [done|]. intros [_ ?]. discriminate.
      + pose proof (open_click_has_effects row col r w cells Hcan Hrow Hcol).
        tauto.
      + assert (TicTacToeBoard.handleCellClick row col r w = (Return tt, w)) as E.
        { destruct_world w. unfold TicTacToeBoard.handleCellClick. mrun.
          rewrite Hcan. cbn [negb]. by rewrite Hrow, Hcol. }
        unfold effects, exec. rewrite E. cbn [snd]. rewrite drop_log_nil.
        split; [done|]. intros [_ ?]. discriminate.
    - destruct (refused_click_does_nothing row col r w (or_introl Hcan))
        as (_ & _ & ->).
      split; [done|]. intros [? _]. discriminate. }
  destruct (canMakeMove (store w)), (cells !! col) as [[[|]|]|];
    repeat case_bool_decide; simplify_eq; cbn [andb app];
    (split; [split|split];
     [ intros Hin; elems
     | intros [Hin1 Hin2]; try discriminate;
       repeat first [apply list_elem_of_here | apply list_elem_of_further]
     | intros Hin; split; intros Hin'; elems
     | intros [Hin Hin']; elems ]); done.
Qed.

Lemma clickable_iff_click_acts_witness :
  ∃ classes,
    cell_classes 0 1 alice = Return classes ∧ "cell-clickable" ∈ classes.
Proof.
  destruct (clickable_iff_click_acts 0 1 (Resolved reply_O_next) alice_world
              [Some X; None; None] eq_refl) as (classes & Hc & Hiff & _).
  exists classes. split; [exact Hc|]. apply Hiff. by vm_compute.
Defined.

(** X14: the status line says [Your turn!] exactly when a move can be
    submitted, and [Opponent's turn] exactly when the game is ongoing
    without a winner and the turn is not known to be the local one; a
    winner, once set, decides the line whatever the status is. *)
Theorem status_line_matches_gate s :
  (gameStatusMessage s = "Your turn!" ↔ canMakeMove s = true) ∧
  (gameStatusMessage s = "Opponent's turn" ↔
     gameStatus s = "ongoing" ∧ winner s = None ∧ isMyTurn s = false) ∧
  ((gameStatusMessage s
      ∈ ["Player X Wins!"; "Player O Wins!"; "It's a Draw!"])
     ↔ winner s ≠ None).
Proof.
  unfold gameStatusMessage. rewrite canMakeMove_true.
  destruct (winner s) as [[| |]|]; [| | |].
  1-3: rewrite !elem_of_cons, elem_of_nil;
       (split; [|split]); split; intros; intuition (try discriminate; auto).
  repeat case_bool_decide; destruct (isMyTurn s);
    rewrite !elem_of_cons, elem_of_nil;
    (split; [|split]); split; intros; intuition (try discriminate; congruence).
Qed.
End BoardShows.

(** ** The game view: mounting, retrying, leaving *)

Section ViewLife.
Import Store View GameStore GameView Examples.

Ltac fin_log := rewrite <- ?app_assoc, ?app_nil_r, ?drop_log, ?drop_log_nil.

Lemma room_commands_app l1 l2 :
  room_commands (l1 ++ l2) = room_commands l1 ++ room_commands l2.
Proof. unfold room_commands. apply omap_app. Qed.

Lemma sockets_opened_app l1 l2 :
  GameWebSocket.sockets_opened (l1 ++ l2)
  = GameWebSocket.sockets_opened l1 + GameWebSocket.sockets_opened l2.
Proof. unfold GameWebSocket.sockets_opened. by rewrite omap_app, length_app. Qed.

(** A tick on a store that is not connected: one new socket, and the same
    store otherwise. *)
Lemma tick_disconnected o w :
  isConnected (store w) = false →
  ∃ g l,
    tick o w =
      (Return tt,
       mkWorld (set_isConnected false (set_ws (Some g) (store w)))
               (view w) (next_handle w) (log w ++ l)) ∧
    room_commands l = [] ∧ GameWebSocket.sockets_opened l = 1.
Proof.
  destruct_world w. unfold tick. mrun. intros ->.
  destruct o, ws0 as [[[rs|] a ls]|]; msteps; fin_log;
    eexists _, _; (split; [reflexivity|]); split; reflexivity.
Qed.

Lemma ticks_disconnected os : ∀ w,
  isConnected (store w) = false →
  ∃ l,
    log (ticks os w) = log w ++ l ∧
    room_commands l = [] ∧
    GameWebSocket.sockets_opened l = length os ∧
    isConnected (store (ticks os w)) = false ∧
    playersInRoom (store (ticks os w)) = playersInRoom (store w) ∧
    view (ticks os w) = view w.
Proof.
  induction os as [|o os IH]; intros w Hw; cbn [ticks].
  - exists []. by rewrite app_nil_r.
  - destruct (tick_disconnected o w Hw) as (g & l & E & Hr & Hs).
    unfold exec. rewrite E. cbn [snd].
    edestruct IH as (l' & El & Hr' & Hs' & Hc & Hp & Hv); [|rewrite El].
    { reflexivity. }
    exists (l ++ l'). cbn [log] in *. rewrite app_assoc.
    split; [done|]. rewrite room_commands_app, sockets_opened_app, Hr, Hr', Hs, Hs'.
    split; [done|]. split; [done|]. split; [exact Hc|].
    split; [exact Hp|exact Hv].
Qed.

(** X16: the retry interval alone never brings a disconnected store back.
    On a store that is not connected every tick opens one more socket
    (tearing the previous one down), whether it opens or fails, and sends no
    room command, because [connectWebSocket] has just set [isConnected] to
    false; so after any number of ticks the store is still not connected,
    the number of players is as it was, and the view has not changed (the
    interval keeps running). *)
Theorem ticks_never_reconnect os w :
  isConnected (store w) = false →
  isConnected (store (ticks os w)) = false ∧
  playersInRoom (store (ticks os w)) = playersInRoom (store w) ∧
  view (ticks os w) = view w ∧
  room_commands (drop (length (log w)) (log (ticks os w))) = [] ∧
  GameWebSocket.sockets_opened (drop (length (log w)) (log (ticks os w)))
    = length os.
Proof.
  intros Hw. destruct (ticks_disconnected os w Hw)
    as (l & El & Hr & Hs & Hc & Hp & Hv).
  rewrite El, drop_log. done.
Qed.

Lemma ticks_never_reconnect_witness :
  isConnected (store (ticks [Fails; Opens; Opens] never_connected)) = false ∧
  GameWebSocket.sockets_opened
    (drop (length (log never_connected))
          (log (ticks [Fails; Opens; Opens] never_connected))) = 3.
Proof.
  assert (isConnected (store never_connected) = false) as H by (by vm_compute).
  destruct (ticks_never_reconnect [Fails; Opens; Opens] never_connected H)
    as (H1 & _ & _ & _ & H2).
  split; [exact H1|exact H2].
Defined.



(** X18: leaving the view clears the interval that runs, and only that:
    [onUnmounted] clears exactly the handle held in [retryInterval] (the one
    [setInterval] returned when the supervisor was started), or nothing when
    none is held; afterwards the supervisor is not running; the store is
    not touched and the socket is not closed. *)
Theorem onUnmounted_clears_interval w :
  active (exec onUnmounted w) = false ∧
  store (exec onUnmounted w) = store w ∧
  effects onUnmounted w =
    match retryInterval (view w) with
    | Some h => [ClearInterval h]
    | None => []
    end ∧
  (active w = false →
   effects (startRetrying;; onUnmounted) w
     = [SetInterval 3000; ClearInterval (next_handle w)]).
Proof.
  destruct_world w. unfold onUnmounted.
  destruct retryInterval0 as [h|]; msteps; fin_log; done.
Qed.

Lemma onUnmounted_clears_interval_witness :
  effects (startRetrying;; onUnmounted) alice_connected
    = [SetInterval 3000; ClearInterval 1%positive].
Proof.
  apply (proj2 (proj2 (proj2 (onUnmounted_clears_interval alice_connected)))).
  by vm_compute.
Defined.
End ViewLife.

(** ** One retry interval at a time *)

Section OneInterval.
Import Store View GameStore GameView Examples.

Lemma intervals_running_app l1 l2 :
  intervals_running (l1 ++ l2)
  = (intervals_running l1 + intervals_running l2)%Z.
Proof.
  unfold intervals_running. induction l1 as [|e l1 IH]; [done|].
  cbn [app foldr]. rewrite IH. destruct e; lia.
Qed.

Lemma running_emit l : intervals_running l = 0%Z → preserves running (emit l).
Proof.
  intros H w. unfold running, exec, emit. cbn [snd log].
  rewrite intervals_running_app, H. lia.
Qed.

Lemma running_modify_store g : preserves running (modify_store g).
Proof. by intros w. Qed.

Lemma running_modify_view g : preserves running (modify_view g).
Proof. by intros w. Qed.

Lemma running_on_ws f :
  (∀ g, intervals_running (snd (f g)) = 0%Z) → preserves running (on_ws f).
Proof.
  intros H w. unfold running, exec, on_ws, mbind, M_bind, get_store.
  destruct (ws (store w)) as [g|]; [|done]. specialize (H g).
  destruct (f g) as [g' eff]. cbn [snd] in H.
  unfold modify_store, emit. cbn [fst snd log].
  rewrite intervals_running_app, H. lia.
Qed.

Hint Resolve running_modify_store running_modify_view : preserve.
Hint Extern 1 (preserves running (emit _)) =>
  apply running_emit; reflexivity : preserve.
Hint Extern 1 (preserves running (on_ws _)) =>
  apply running_on_ws; intros [[?|] ? ?];
  first [ reflexivity
        | unfold GameWebSocket.onclose, GameWebSocket.attemptReconnect;
          case_bool_decide; reflexivity ] : preserve.

Lemma running_connectWebSocket : preserves running connectWebSocket.
Proof. unfold connectWebSocket. preserve. Qed.

Lemma running_await_connect o : preserves running (await_connect o).
Proof. unfold await_connect. preserve. Qed.

Lemma running_send m : preserves running (send_if_connected m).
Proof.
  unfold send_if_connected. preserve.
  apply running_emit. unfold GameWebSocket.send. by case_bool_decide.
Qed.
Hint Resolve running_connectWebSocket running_await_connect running_send
  : preserve.

Lemma running_run_listener l m : preserves running (run_listener l m).
Proof. unfold run_listener. preserve. Qed.
Hint Resolve running_run_listener : preserve.

Lemma running_loadGame gid uid rG rB :
  preserves running (loadGame gid uid rG rB).
Proof. unfold loadGame. preserve. Qed.

Lemma running_makeMove row col r : preserves running (makeMove row col r).
Proof. unfold makeMove, makeMove_settle. preserve. Qed.

Lemma running_room_command : preserves running room_command.
Proof. unfold room_command, createRoom, joinRoom. preserve. Qed.
Hint Resolve running_loadGame running_makeMove running_room_command
  : preserve.

(** The handlers other than the tick start and clear no interval. *)
Lemma running_handler e :
  (∀ o, e ≠ IntervalTick o) → preserves running (handler e).
Proof.
  intros He. destruct e; cbn [handler].
  - unfold initializeGame, createRoom, joinRoom. preserve.
  - unfold onmessage. preserve.
  - unfold onclose. preserve.
  - unfold reconnect. preserve.
  - by destruct (He o).
  - unfold retryConnection. preserve.
  - unfold TicTacToeBoard.handleCellClick. preserve.
Qed.

Lemma retryInterval_handler e :
  (∀ o, e ≠ IntervalTick o) →
  preserves (of_view retryInterval) (handler e).
Proof.
  intros He. destruct e; cbn [handler].
  - apply retryInterval_initializeGame.
  - apply view_onmessage.
  - apply view_onclose.
  - apply view_reconnect.
  - by destruct (He o).
  - apply retryInterval_retryConnection.
  - apply view_handleCellClick.
Qed.

Lemma surplus_tick o w : interval_surplus (exec (tick o) w) = interval_surplus w.
Proof.
  destruct_world w. unfold interval_surplus, running, tick.
  destruct ws0 as [[[rs|] a ls]|]; msteps;
    rewrite <- ?app_assoc, ?intervals_running_app; cbn; lia.
Qed.

Lemma surplus_watch_callback p w :
  interval_surplus (exec (watch_callback p) w) = interval_surplus w.
Proof.
  destruct_world w. destruct p as [c n]. unfold interval_surplus, running.
  msteps; rewrite ?intervals_running_app; cbn; lia.
Qed.

(** What keeps the intervals that run and the handle keeps the surplus; and
    so does code that runs under the watcher. *)
Lemma surplus_of {A} (m : M A) :
  preserves running m → preserves (of_view retryInterval) m →
  preserves interval_surplus m.
Proof.
  intros H1 H2 w. unfold interval_surplus.
  specialize (H2 w). unfold of_view in H2. by rewrite H1, H2.
Qed.

Lemma surplus_with_watch m :
  preserves interval_surplus m → preserves interval_surplus (with_watch m).
Proof.
  intros H w. rewrite with_watch_exec. case_bool_decide; [apply H|].
  rewrite surplus_watch_callback. apply H.
Qed.

Hint Extern 2 (preserves interval_surplus _) =>
  apply surplus_of; solve [preserve] : preserve.

Lemma surplus_step e w : interval_surplus (step e w) = interval_surplus w.
Proof.
  assert (preserves interval_surplus (with_watch connectWebSocket)) as Hc.
  { apply surplus_with_watch, surplus_of;
      [apply running_connectWebSocket|apply view_connectWebSocket]. }
  assert (interval_surplus (exec (handler e) w) = interval_surplus w) as Hh.
  { assert ((∃ o, e = IntervalTick o) ∨ ∀ o, e ≠ IntervalTick o) as [[o ->]|He]
      by (destruct e; eauto; right; discriminate).
    - cbn [handler]. unfold exec, mbind, M_bind, get_view. cbn [fst snd].
      destruct (retryInterval (view w)); [apply surplus_tick|done].
    - unfold interval_surplus.
      rewrite (running_handler e He w).
      pose proof (retryInterval_handler e He w) as Hv. unfold of_view in Hv.
      by rewrite Hv. }
  unfold step.
  destruct e; cbn [mounted];
    try (rewrite with_watch_exec; case_bool_decide; [exact Hh|];
         by rewrite surplus_watch_callback).
  - assert (preserves interval_surplus
              (initializeGame_with (with_watch connectWebSocket)
                 rGame rBoard o)) as H; [|apply (H w)].
    unfold initializeGame_with, createRoom, joinRoom. preserve.
  - assert (preserves interval_surplus
              (retryConnection_with (with_watch connectWebSocket) o)) as H;
      [|apply (H w)].
    unfold retryConnection_with. preserve.
Qed.

Lemma surplus_run_events es : ∀ w,
  interval_surplus (run_events es w) = interval_surplus w.
Proof.
  induction es as [|e es IH]; intros w; [done|].
  cbn [run_events foldl]. fold (run_events es (step e w)).
  by rewrite IH, surplus_step.
Qed.

(** X19: the retry interval is a singleton.  Whatever happens to a mounted
    view (mount, frames, closes, reconnections, ticks, manual retries,
    clicks, in any number and order, with any replies), the number of
    intervals started and not cleared is 1 when [retryInterval] holds a
    handle and 0 when it does not: never two at a time, and none that the
    view has lost track of. *)
Theorem interval_is_singleton es s gid uid :
  intervals_running (log (run_events es (setup s gid uid)))
  = if active (run_events es (setup s gid uid)) then 1%Z else 0%Z.
Proof.
  pose proof (surplus_run_events es (setup s gid uid)) as H.
  unfold interval_surplus, running, active in *. cbn [setup log view] in H.
  cbn in H. destruct (retryInterval (view (run_events es _))); cbn; lia.
Qed.
End OneInterval.

(** ** Patterns *)

Section Patterns.
Import Regex.

Lemma lang_cat_inv r s w :
  lang (Cat r s) w ↔ ∃ u v, w = u ++ v ∧ lang r u ∧ lang s v.
Proof.
  split.
  - inversion 1; subst. eauto.
  - intros (u & v & -> & Hu & Hv). by constructor.
Qed.

Lemma lang_alt_inv r s w : lang (Alt r s) w ↔ lang r w ∨ lang s w.
Proof.
  split.
  - inversion 1; subst; eauto.
  - intros [H|H]; [by apply lang_alt_l|by apply lang_alt_r].
Qed.

Lemma lang_class_inv p w : lang (Class p) w ↔ ∃ c, w = [c] ∧ p c = true.
Proof.
  split.
  - inversion 1; subst. eauto.
  - intros (c & -> & Hc). by constructor.
Qed.

Lemma nullable_lang r : nullable r = true ↔ lang r [].
Proof.
  induction r as [| |p|r IHr s IHs|r IHr s IHs|r IH]; cbn.
  - split; [done|inversion 1].
  - split; [constructor|done].
  - split; [done|inversion 1].
  - rewrite andb_true_iff, IHr, IHs, lang_cat_inv. split.
    + intros [Hr Hs]. exists [], []. done.
    + intros (u & v & E & Hu & Hv). symmetry in E.
      apply app_eq_nil in E as [-> ->]. done.
  - rewrite orb_true_iff, IHr, IHs, lang_alt_inv. done.
  - split; [constructor|done].
Qed.

(** A text of [r*] that starts with [c] starts with a text of [r] that
    starts with [c]. *)
Lemma lang_star_cons_inv r c w :
  lang (Star r) (c :: w) →
  ∃ u v, w = u ++ v ∧ lang r (c :: u) ∧ lang (Star r) v.
Proof.
  intros H. remember (Star r) as sr eqn:Esr. remember (c :: w) as cw eqn:Ecw.
  revert r c w Esr Ecw.
  induction H as [| | | | | |r' u v Hu _ Hv IHv]; intros r0 c0 w0 Esr Ecw;
    try discriminate.
  injection Esr as ->. destruct u as [|c' u]; cbn in Ecw.
  - eapply IHv; [done|exact Ecw].
  - injection Ecw as -> <-. eauto.
Qed.

Lemma deriv_lang c r : ∀ w, lang (deriv c r) w ↔ lang r (c :: w).
Proof.
  induction r as [| |p|r IHr s IHs|r IHr s IHs|r IH]; intros w; cbn [deriv].
  - split; inversion 1.
  - split; inversion 1.
  - destruct (p c) eqn:Hp.
    + split.
      * inversion 1; subst. by constructor.
      * inversion 1; subst. constructor.
    + split; [inversion 1|]. inversion 1; subst. congruence.
  - assert (lang (Cat (deriv c r) s) w ↔
            ∃ u v, w = u ++ v ∧ lang r (c :: u) ∧ lang s v) as Hcat.
    { rewrite lang_cat_inv. by setoid_rewrite IHr. }
    destruct (nullable r) eqn:Hn.
    + rewrite lang_alt_inv, Hcat, IHs, lang_cat_inv. split.
      * intros [(u & v & -> & Hu & Hv)|Hs].
        -- exists (c :: u), v. done.
        -- exists [], (c :: w). split; [done|]. split; [|done].
           by apply nullable_lang.
      * intros ([|c' u] & v & E & Hu & Hv); cbn in E.
        -- subst v. by right.
        -- injection E as -> ->. left. eauto.
    + rewrite Hcat, lang_cat_inv. split.
      * intros (u & v & -> & Hu & Hv). exists (c :: u), v. done.
      * intros ([|c' u] & v & E & Hu & Hv); cbn in E.
        -- apply nullable_lang in Hu. congruence.
        -- injection E as -> ->. eauto.
  - rewrite !lang_alt_inv, IHr, IHs. done.
  - rewrite lang_cat_inv. setoid_rewrite IH. split.
    + intros (u & v & -> & Hu & Hv).
      by apply (lang_star_cons r (c :: u) v).
    + apply lang_star_cons_inv.
Qed.

(** [test] decides the texts of a pattern. *)
Lemma test_lang v : ∀ r, test r v = true ↔ lang r v.
Proof.
  induction v as [|c v IH]; intros r; cbn [test].
  - apply nullable_lang.
  - by rewrite IH, deriv_lang.
Qed.

Lemma lang_star_class p w : lang (Star (Class p)) w ↔ Forall (λ c, p c = true) w.
Proof.
  split.
  - intros H. remember (Star (Class p)) as sr eqn:E.
    induction H as [| | | | | |r u v Hu _ Hv IHv]; try discriminate.
    + constructor.
    + injection E as ->. apply lang_class_inv in Hu as (c & -> & Hc).
      constructor; [done|]. by apply IHv.
  - induction 1 as [|c w Hc _ IH]; [constructor|].
    apply (lang_star_cons (Class p) [c] w); [by constructor|done].
Qed.

(** [[p]+]: a text that is not empty, of code units of the class *)
Lemma lang_plus_class p w :
  lang (Plus (Class p)) w ↔ w ≠ [] ∧ Forall (λ c, p c = true) w.
Proof.
  unfold Plus. rewrite lang_cat_inv. split.
  - intros (u & v & -> & Hu & Hv).
    apply lang_class_inv in Hu as (c & -> & Hc).
    apply lang_star_class in Hv. split; [done|]. by constructor.
  - intros [Hne Hall]. destruct w as [|c w]; [done|].
    apply Forall_cons in Hall as [Hc Hw].
    exists [c], w. split; [done|]. split; [by constructor|].
    by apply lang_star_class.
Qed.

(** A search finds a code unit of the class somewhere. *)
Lemma lang_search_class p w :
  lang (Search (Class p)) w ↔ Exists (λ c, p c = true) w.
Proof.
  unfold Search. rewrite lang_cat_inv. split.
  - intros (u & v & -> & _ & Hv).
    apply lang_cat_inv in Hv as (x & y & -> & Hx & _).
    apply lang_class_inv in Hx as (c & -> & Hc).
    apply Exists_app. right. by constructor.
  - intros H. apply Exists_exists in H as (c & Hin & Hc).
    apply list_elem_of_split in Hin as (u & v & ->).
    exists u, (c :: v). split; [done|]. split.
    + apply lang_star_class. by apply Forall_true.
    + apply (lang_cat (Class p) _ [c] v); [by constructor|].
      apply lang_star_class. by apply Forall_true.
Qed.
End Patterns.


(** ** The validators *)

Section Validators.
Import Regex Validation.

Lemma emailRegex_lang v :
  lang emailRegex v ↔
  ∃ a b c, v = a ++ at_sign :: b ++ dot :: c ∧ a ≠ [] ∧ b ≠ [] ∧ c ≠ [] ∧
    Forall (λ u, plain u = true) (a ++ b ++ c).
Proof.
  unfold emailRegex. split.
  - intros H.
    apply lang_cat_inv in H as (a & r1 & -> & Ha & H).
    apply lang_plus_class in Ha as [Ha Fa].
    apply lang_cat_inv in H as (x & r2 & -> & Hx & H).
    apply lang_class_inv in Hx as (c0 & -> & Hc0).
    apply N.eqb_eq in Hc0 as <-.
    apply lang_cat_inv in H as (b & r3 & -> & Hb & H).
    apply lang_plus_class in Hb as [Hb Fb].
    apply lang_cat_inv in H as (y & c & -> & Hy & Hc).
    apply lang_class_inv in Hy as (c1 & -> & Hc1).
    apply N.eqb_eq in Hc1 as <-.
    apply lang_plus_class in Hc as [Hc Fc].
    exists a, b, c. rewrite !Forall_app. done.
  - intros (a & b & c & -> & Ha & Hb & Hc & F).
    rewrite !Forall_app in F. destruct F as (Fa & Fb & Fc).
    apply lang_cat; [by apply lang_plus_class|].
    apply (lang_cat _ _ [at_sign] (b ++ dot :: c));
      [constructor; apply N.eqb_refl|].
    apply lang_cat; [by apply lang_plus_class|].
    apply (lang_cat _ _ [dot] c); [constructor; apply N.eqb_refl|].
    by apply lang_plus_class.
Qed.

(** X20 ([validators.email]): an address is accepted exactly when it reads
    [a @ b . c] with [a], [b] and [c] not empty and free of white space and
    of further at signs. *)
Theorem email_valid_iff (v : text) :
  valid (email v) = true ↔
  ∃ a b c, v = a ++ at_sign :: b ++ dot :: c ∧ a ≠ [] ∧ b ≠ [] ∧ c ≠ [] ∧
    Forall (λ u, plain u = true) (a ++ b ++ c).
Proof.
  rewrite <- emailRegex_lang, <- test_lang. unfold email.
  destruct (bool_decide (v = [])) eqn:E.
  - apply bool_decide_eq_true in E as ->. cbn. done.
  - destruct (test emailRegex v); cbn; done.
Qed.

Lemma username_accepted (v : text) :
  valid (username v) = true →
  (3 ≤ length v ≤ 20)%nat ∧ Forall (λ c, word c = true) v.
Proof.
  unfold username. destruct (bool_decide (v = [])); [done|].
  destruct (Nat.ltb_spec (length v) 3); [done|].
  destruct (Nat.ltb_spec 20 (length v)); [done|].
  destruct (test usernameRegex v) eqn:T; [intros _|done].
  apply test_lang, lang_plus_class in T as [_ T]. split; [lia|done].
Qed.

(** X21 ([validators.username]): a user name is accepted exactly when it has
    3 to 20 code units, all of them ASCII letters, digits or underscores. *)
Theorem username_valid_iff (v : text) :
  valid (username v) = true ↔
  (3 ≤ length v ≤ 20)%nat ∧ Forall (λ c, word c = true) v.
Proof.
  split; [apply username_accepted|]. intros [[H3 H20] F].
  assert (v ≠ []) as Hne by (intros ->; cbn in H3; lia).
  unfold username. rewrite (bool_decide_eq_false_2 _ Hne).
  destruct (Nat.ltb_spec (length v) 3); [lia|].
  destruct (Nat.ltb_spec 20 (length v)); [lia|].
  assert (test usernameRegex v = true) as ->; [|done].
  by apply test_lang, lang_plus_class.
Qed.

Lemma test_search p v :
  test (Search (Class p)) v = true ↔ Exists (λ c, p c = true) v.
Proof. by rewrite test_lang, lang_search_class. Qed.

(** X22 ([validators.passwordStrength]): a password is accepted exactly when
    it has at least 8 code units, among them an ASCII capital, an ASCII small
    letter and an ASCII digit. *)
Theorem passwordStrength_valid_iff (v : text) :
  valid (passwordStrength v) = true ↔
  (8 ≤ length v)%nat ∧ Exists (λ c, upper c = true) v ∧
  Exists (λ c, lower c = true) v ∧ Exists (λ c, digit c = true) v.
Proof.
  unfold passwordStrength. rewrite <- !test_search.
  destruct (bool_decide (v = [])) eqn:E.
  - apply bool_decide_eq_true in E as ->. cbn. split; [done|lia].
  - destruct (Nat.ltb_spec (length v) 8); [cbn; split; [done|lia]|].
    destruct (test (Search (Class upper)) v); cbn;
      [|split; [done|intros (_ & ? & _); done]].
    destruct (test (Search (Class lower)) v); cbn;
      [|split; [done|intros (_ & _ & ? & _); done]].
    destruct (test (Search (Class digit)) v); cbn;
      [|split; [done|intros (_ & _ & _ & ?); done]].
    done.
Qed.

Lemma trimStart_nil v :
  trimStart v = [] ↔ Forall (λ c, is_space c = true) v.
Proof.
  induction v as [|c v IH]; cbn; [done|].
  destruct (is_space c) eqn:E.
  - rewrite IH. split; [by constructor|]. by inversion 1.
  - split; [done|]. inversion 1; congruence.
Qed.

Lemma trimStart_head v c w : trimStart v = c :: w → is_space c = false.
Proof.
  induction v as [|c' v IH]; cbn; [done|].
  destruct (is_space c') eqn:E; [done|]. by intros [= <- _].
Qed.

Lemma trimStart_id v :
  Forall (λ c, is_space c = false) v → trimStart v = v.
Proof. destruct 1 as [|c v Hc _]; cbn; [done|]. by rewrite Hc. Qed.

Lemma trim_nil v : trim v = [] ↔ Forall (λ c, is_space c = true) v.
Proof.
  unfold trim, trimEnd. rewrite <- trimStart_nil.
  split.
  - intros H. apply (f_equal reverse) in H.
    rewrite reverse_involutive, reverse_nil in H.
    apply trimStart_nil in H. rewrite Forall_reverse in H.
    destruct (trimStart v) as [|c w] eqn:E; [done|].
    apply trimStart_head in E. apply Forall_cons in H as [H _]. congruence.
  - by intros ->.
Qed.

Lemma trim_id v : Forall (λ c, is_space c = false) v → trim v = v.
Proof.
  intros H. unfold trim, trimEnd. rewrite (trimStart_id v H).
  rewrite trimStart_id; [apply reverse_involutive|by apply Forall_reverse].
Qed.

Lemma blank_or_not (v : text) :
  Forall (λ c, is_space c = true) v ∨ Exists (λ c, is_space c = false) v.
Proof.
  induction v as [|c v [IH|IH]].
  - left. constructor.
  - destruct (is_space c) eqn:E.
    + left. by constructor.
    + right. by constructor.
  - right. by constructor 2.
Qed.

Lemma required_accepts (v : text) (fieldName : string) :
  valid (required v fieldName) = true ↔ Exists (λ c, is_space c = false) v.
Proof.
  unfold required.
  assert (bool_decide (v = []) || (length (trim v) =? 0)%nat = true
          ↔ Forall (λ c, is_space c = true) v) as Hs.
  { rewrite orb_true_iff, bool_decide_eq_true, Nat.eqb_eq, length_zero_iff_nil,
      trim_nil.
    split; [|by right]. intros [->|H]; [constructor|done]. }
  destruct (bool_decide (v = []) || (length (trim v) =? 0)%nat) eqn:E; cbn.
  - split; [done|]. intros Hex.
    apply proj1 in Hs. specialize (Hs eq_refl).
    apply Exists_exists in Hex as (c & Hin & Hc).
    rewrite Forall_forall in Hs. specialize (Hs c Hin). congruence.
  - split; [|done]. intros _.
    destruct (blank_or_not v) as [F|Hex]; [|done]. by apply Hs in F.
Qed.

(** X23 ([validators.required]): a value is accepted exactly when one of its
    code units is not white space; the empty text and texts of blanks, tabs
    and line ends are refused with the message that names the field. *)
Theorem required_valid_iff (v : text) (fieldName : string) :
  (valid (required v fieldName) = true ↔
     Exists (λ c, is_space c = false) v) ∧
  (valid (required v fieldName) = false →
     message (required v fieldName) = Some (fieldName +:+ " is required")).
Proof.
  split; [apply required_accepts|].
  unfold required.
  destruct (bool_decide (v = []) || (length (trim v) =? 0)%nat); cbn; done.
Qed.

(** X24 ([validateField]): the result is valid exactly when every rule
    accepts the value; otherwise it is the result of the first rule that
    refuses it. *)
Theorem validateField_first_failure (v : text)
    (rules : list (text → ValidationResult)) :
  (valid (validateField v rules) = true ↔
     Forall (λ rule, valid (rule v) = true) rules) ∧
  (valid (validateField v rules) = false →
     ∃ i rule, rules !! i = Some rule ∧ validateField v rules = rule v ∧
       Forall (λ rule', valid (rule' v) = true) (take i rules)).
Proof.
  induction rules as [|rule rules [IH1 IH2]]; cbn [validateField].
  - split; [done|]. cbn. done.
  - destruct (valid (rule v)) eqn:E; cbn [negb].
    + split.
      * rewrite IH1. split; [by constructor|]. by inversion 1.
      * intros H. destruct (IH2 H) as (i & rule' & Hi & Hr & Hall).
        exists (S i), rule'. cbn. split; [done|]. split; [done|].
        by constructor.
    + split.
      * rewrite E. split; [done|]. inversion 1; congruence.
      * intros _. exists 0%nat, rule. cbn. done.
Qed.

Lemma word_bounds c : word c = true → (48 ≤ c ≤ 122)%N.
Proof.
  unfold word, lower, upper, digit, between.
  rewrite !orb_true_iff, !andb_true_iff, !N.leb_le, N.eqb_eq. lia.
Qed.

Lemma word_not_space c : word c = true → is_space c = false.
Proof.
  intros H%word_bounds. unfold is_space, between.
  repeat match goal with
  | |- context [(?a <=? ?b)%N] =>
      first [rewrite (proj2 (N.leb_le a b)) by lia
            |rewrite (proj2 (N.leb_gt a b)) by lia]
  | |- context [(?a =? ?b)%N] => rewrite (proj2 (N.eqb_neq a b)) by lia
  end.
  done.
Qed.

Lemma plain_not_space c : plain c = true → is_space c = false.
Proof. unfold plain. by destruct (is_space c). Qed.

Lemma username_trim v : valid (username v) = true → trim v = v.
Proof.
  intros [_ H]%username_accepted. apply trim_id.
  eapply Forall_impl; [exact H|]. apply word_not_space.
Qed.

Lemma email_not_space v :
  valid (email v) = true → Forall (λ c, is_space c = false) v.
Proof.
  unfold email. destruct (bool_decide (v = [])); [done|].
  destruct (test emailRegex v) eqn:T; [intros _|done].
  apply test_lang, emailRegex_lang in T as (a & b & c & -> & _ & _ & _ & F).
  rewrite !Forall_app in F. destruct F as (Fa & Fb & Fc).
  rewrite Forall_app, Forall_cons, Forall_app, Forall_cons.
  repeat split; try done;
    try (eapply Forall_impl; [eassumption|apply plain_not_space]).
Qed.

Lemma email_accepted_nonempty v : valid (email v) = true → v ≠ [].
Proof. unfold email. by case_bool_decide. Qed.

Lemma passwordStrength_accepted_length v :
  valid (passwordStrength v) = true → (8 ≤ length v)%nat.
Proof.
  unfold passwordStrength. destruct (bool_decide (v = [])); [done|].
  by destruct (Nat.ltb_spec (length v) 8).
Qed.

Lemma email_trim v : valid (email v) = true → trim v = v.
Proof. intros H. by apply trim_id, email_not_space. Qed.

(** The validators of the user name and of the password against
    [validators.minLength], [validators.maxLength] and [validateField]: on a
    text that is not empty and has a wrong length, the user-name validator
    gives the result of the generic length rules for [Username] with 3 and
    20, and the password validator that of [minLength] for [Password]
    with 8. *)
Theorem length_rules_agree (v : text) :
  v ≠ [] →
  let rules := [λ x, minLength x 3 "Username"; λ x, maxLength x 20 "Username"] in
  (valid (validateField v rules) = false →
     username v = validateField v rules) ∧
  (valid (minLength v 8 "Password") = false →
     passwordStrength v = minLength v 8 "Password").
Proof.
  intros Hv rules. unfold rules, username, passwordStrength, minLength, maxLength.
  cbn [validateField].
  rewrite (bool_decide_eq_false_2 _ Hv).
  split.
  - destruct (length v <? 3)%nat; [intros _; vm_compute; reflexivity|].
    destruct (20 <? length v)%nat; [intros _; vm_compute; reflexivity|].
    cbn. discriminate.
  - destruct (length v <? 8)%nat; [intros _; vm_compute; reflexivity|].
    cbn. discriminate.
Qed.

Lemma length_rules_agree_witness :
  username (units "ab") = fails "Username must be at least 3 characters" ∧
  passwordStrength (units "Ab1") =
    minLength (units "Ab1") 8 "Password".
Proof.
  pose proof (length_rules_agree (units "ab")) as Hu.
  pose proof (length_rules_agree (units "Ab1")) as Hp.
  split.
  - rewrite (proj1 (Hu ltac:(vm_compute; discriminate)));
      vm_compute; reflexivity.
  - apply (proj2 (Hp ltac:(vm_compute; discriminate))).
    vm_compute; reflexivity.
Defined.
End Validators.


(** ** The sign-up and log-in forms *)

Section Forms.
Import Validation.

Lemma note_is_Some key r errs k :
  is_Some (note key r errs !! k) ↔
  (k = key ∧ valid r = false) ∨ is_Some (errs !! k).
Proof.
  unfold note. destruct (valid r); cbn [negb].
  - split; [by right|]. by intros [[_ ?]|?].
  - rewrite lookup_insert_is_Some. split.
    + intros [->|[_ H]]; [by left|by right].
    + intros [[-> _]|H]; [by left|].
      destruct (decide (key = k)); [by left|by right].
Qed.

Lemma no_errors (errs : gmap string string) :
  bool_decide (size errs = 0) = true ↔ ∀ k, ¬ is_Some (errs !! k).
Proof.
  rewrite bool_decide_eq_true, map_size_empty_iff, map_empty.
  by setoid_rewrite eq_None_not_Some.
Qed.

Lemma passwordsMatch_valid p c : valid (passwordsMatch p c) = true ↔ p = c.
Proof.
  unfold passwordsMatch. destruct (decide (p = c)) as [->|Hne].
  - rewrite bool_decide_eq_false_2 by (intros H; by apply H). done.
  - rewrite bool_decide_eq_true_2 by done. done.
Qed.

Lemma signup_errors_key f k :
  is_Some (SignupView.validateForm_errors f !! k) ↔
  (k = "username" ∧ valid (username (SignupView.username f)) = false) ∨
  (k = "email" ∧ valid (email (SignupView.email f)) = false) ∨
  (k = "password" ∧ valid (passwordStrength (SignupView.password f)) = false) ∨
  (k = "confirmPassword" ∧
   valid (passwordsMatch (SignupView.password f)
            (SignupView.confirmPassword f)) = false).
Proof.
  unfold SignupView.validateForm_errors.
  rewrite !note_is_Some.
  pose proof (lookup_empty_is_Some (M:=gmap string) (A:=string) k). tauto.
Qed.

Lemma signup_accepts f :
  bool_decide (size (SignupView.validateForm_errors f) = 0) = true ↔
  valid (username (SignupView.username f)) = true ∧
  valid (email (SignupView.email f)) = true ∧
  valid (passwordStrength (SignupView.password f)) = true ∧
  SignupView.password f = SignupView.confirmPassword f.
Proof.
  rewrite no_errors, <- passwordsMatch_valid. split.
  - intros H.
    repeat split; apply not_false_iff_true; intros E.
    + apply (H "username"), signup_errors_key. tauto.
    + apply (H "email"), signup_errors_key. tauto.
    + apply (H "password"), signup_errors_key. tauto.
    + apply (H "confirmPassword"), signup_errors_key. tauto.
  - intros (H1 & H2 & H3 & H4) k Hk. apply signup_errors_key in Hk.
    destruct Hk as [[_ ?]|[[_ ?]|[[_ ?]|[_ ?]]]]; congruence.
Qed.

(** X25 ([validateForm] of the sign-up form): the form is accepted exactly
    when the user name, the address and the password pass their validators
    and the confirmation equals the password; the errors it leaves are
    keyed by exactly the fields that failed, whatever errors were shown
    before. *)
Theorem signup_validateForm_accepts_iff (v : SignupView.t) :
  let f := SignupView.formData v in
  let v' := snd (SignupView.validateForm v) in
  (fst (SignupView.validateForm v) = true ↔
     valid (username (SignupView.username f)) = true ∧
     valid (email (SignupView.email f)) = true ∧
     valid (passwordStrength (SignupView.password f)) = true ∧
     SignupView.password f = SignupView.confirmPassword f) ∧
  (∀ k, is_Some (SignupView.errors v' !! k) ↔
     (k = "username" ∧ valid (username (SignupView.username f)) = false) ∨
     (k = "email" ∧ valid (email (SignupView.email f)) = false) ∨
     (k = "password" ∧
      valid (passwordStrength (SignupView.password f)) = false) ∨
     (k = "confirmPassword" ∧
      SignupView.password f ≠ SignupView.confirmPassword f)) ∧
  SignupView.formData v' = f ∧
  SignupView.isSubmitting v' = SignupView.isSubmitting v.
Proof.
  cbn. split; [apply signup_accepts|]. split; [|done].
  intros k. rewrite signup_errors_key, <- passwordsMatch_valid.
  rewrite (not_true_iff_false (valid (passwordsMatch _ _))). done.
Qed.

Lemma nonempty_of_length (v : text) n : (S n ≤ length v)%nat → v ≠ [].
Proof. destruct v; cbn; [lia|done]. Qed.

(** X26 ([handleSubmit], [canSubmit] of the sign-up form): a form that
    [validateForm] refuses sends nothing and only shows its errors; a form
    it accepts also satisfies [canSubmit], and what is sent to the auth
    store is the user name, the address and the password exactly as typed
    (the [trim] calls change nothing on accepted values), followed by the
    navigation to [/] unless the sign-up was rejected. *)
Theorem signup_handleSubmit_cases (rejected : bool) (v : SignupView.t) :
  let f := SignupView.formData v in
  (fst (SignupView.validateForm v) = false ∧
   SignupView.handleSubmit rejected v = (snd (SignupView.validateForm v), []) ∧
   SignupView.errors (fst (SignupView.handleSubmit rejected v)) ≠ ∅)
  ∨
  (fst (SignupView.validateForm v) = true ∧
   SignupView.canSubmit f = true ∧
   SignupView.handleSubmit rejected v =
     (SignupView.mk f ∅ false,
      [SignupView.clearError;
       SignupView.signup (SignupView.username f) (SignupView.email f)
         (SignupView.password f)]
      ++ (if rejected then [] else [SignupView.push "/"]))).
Proof.
  intros f. unfold SignupView.handleSubmit, SignupView.validateForm. cbn.
  fold f.
  destruct (bool_decide (size (SignupView.validateForm_errors f) = 0)) eqn:E;
    cbn.
  - right. split; [done|].
    pose proof E as Hsize. apply bool_decide_eq_true, map_size_empty_iff in Hsize.
    apply signup_accepts in E as (Hu & He & Hp & Hc).
    rewrite (username_trim _ Hu), (email_trim _ He), Hsize.
    split; [|done].
    unfold SignupView.canSubmit.
    rewrite (username_trim _ Hu), (email_trim _ He), <- Hc.
    apply username_accepted in Hu as [[Hu _] _].
    apply email_accepted_nonempty in He.
    apply passwordStrength_accepted_length in Hp.
    rewrite !bool_decide_eq_false_2; [done|..].
    + by apply (nonempty_of_length _ 7).
    + done.
    + by apply (nonempty_of_length _ 2).
  - left. split; [done|]. split; [done|].
    intros Hempty. apply bool_decide_eq_false in E. apply E.
    by apply map_size_empty_iff.
Qed.

Lemma login_errors_key f k :
  is_Some (LoginView.validateForm_errors f !! k) ↔
  (k = "username" ∧ valid (username (LoginView.username f)) = false) ∨
  (k = "password" ∧
   valid (required (LoginView.password f) "Password") = false).
Proof.
  unfold LoginView.validateForm_errors.
  rewrite !note_is_Some.
  pose proof (lookup_empty_is_Some (M:=gmap string) (A:=string) k). tauto.
Qed.

Lemma login_accepts f :
  bool_decide (size (LoginView.validateForm_errors f) = 0) = true ↔
  valid (username (LoginView.username f)) = true ∧
  valid (required (LoginView.password f) "Password") = true.
Proof.
  rewrite no_errors. split.
  - intros H. split; apply not_false_iff_true; intros E.
    + apply (H "username"), login_errors_key. tauto.
    + apply (H "password"), login_errors_key. tauto.
  - intros (H1 & H2) k Hk. apply login_errors_key in Hk.
    destruct Hk as [[_ ?]|[_ ?]]; congruence.
Qed.

(** X27 ([validateForm], [handleSubmit], [canSubmit] of the log-in form):
    the form is accepted exactly when the user name passes its validator and
    the password holds a code unit that is not white space; a refused form
    sends nothing; an accepted one satisfies [canSubmit] and sends the user
    name and the password as typed, then navigates to the [redirect] of the
    route, or to [/] when there is none or it is empty, unless the log-in was
    rejected. *)
Theorem login_handleSubmit_cases (rejected : bool) (v : LoginView.t) :
  let f := LoginView.formData v in
  (fst (LoginView.validateForm v) = true ↔
     valid (username (LoginView.username f)) = true ∧
     Exists (λ c, is_space c = false) (LoginView.password f)) ∧
  (fst (LoginView.validateForm v) = false →
     LoginView.handleSubmit rejected v = (snd (LoginView.validateForm v), []) ∧
     LoginView.errors (fst (LoginView.handleSubmit rejected v)) ≠ ∅) ∧
  (fst (LoginView.validateForm v) = true →
     LoginView.canSubmit f = true ∧
     LoginView.handleSubmit rejected v =
       (LoginView.mk f ∅ false (LoginView.redirect v),
        [LoginView.clearError;
         LoginView.login (LoginView.username f) (LoginView.password f)]
        ++ (if rejected then []
            else [LoginView.push
                    match LoginView.redirect v with
                    | Some r => if bool_decide (r = "") then "/" else r
                    | None => "/"
                    end]))).
Proof.
  intros f. unfold LoginView.handleSubmit, LoginView.validateForm. cbn.
  fold f. split; [|split].
  - rewrite login_accepts.
    by rewrite (required_accepts (LoginView.password f) "Password").
  - intros E. rewrite E. cbn. split; [done|].
    intros Hempty. apply bool_decide_eq_false in E. apply E.
    by apply map_size_empty_iff.
  - intros E. rewrite E. cbn.
    pose proof E as Hsize. apply bool_decide_eq_true, map_size_empty_iff in Hsize.
    apply login_accepts in E as (Hu & Hp).
    rewrite (username_trim _ Hu), Hsize. split.
    + unfold LoginView.canSubmit. rewrite (username_trim _ Hu).
      apply username_accepted in Hu as [[Hu _] _].
      unfold required in Hp.
      destruct (bool_decide (LoginView.password f = [])
                || (length (trim (LoginView.password f)) =? 0)%nat) eqn:Eb;
        [done|].
      apply orb_false_iff in Eb as [_ Et]. apply Nat.eqb_neq in Et.
      rewrite !bool_decide_eq_false_2; [done|..].
      * intros Hnil. by rewrite Hnil in Et.
      * by apply (nonempty_of_length _ 2).
    + unfold or_else, or_empty. by destruct (LoginView.redirect v).
Qed.

Lemma login_handleSubmit_cases_witness :
  snd (LoginView.handleSubmit false
         (LoginView.mk
            (LoginView.mkForm (units "alice_1") (units "  secret "))
            ∅ false (Some "/game/7")))
  = [LoginView.clearError;
     LoginView.login (units "alice_1") (units "  secret ");
     LoginView.push "/game/7"].
Proof.
  pose proof (login_handleSubmit_cases false
    (LoginView.mk (LoginView.mkForm (units "alice_1") (units "  secret "))
       ∅ false (Some "/game/7"))) as (_ & _ & H).
  destruct (H ltac:(vm_compute; reflexivity)) as [_ ->].
  vm_compute. reflexivity.
Defined.

(** What the validators make of some inputs *)
Example validators_examples :
  valid (email (units "ann@example.org")) = true ∧
  valid (email (units "ann@example")) = false ∧
  valid (email (units "ann smith@example.org")) = false ∧
  valid (email (units "a@b@c.d")) = false ∧
  valid (username (units "ann_7")) = true ∧
  valid (username (units "ann smith")) = false ∧
  valid (passwordStrength (units "Secret123")) = true ∧
  valid (passwordStrength (units "secret123")) = false ∧
  valid (required (units "   ") "Password") = false ∧
  trim ([9; 32] ++ units "a b" ++ [10; 160])%N = units "a b".
Proof. vm_compute. repeat split. Qed.

(** A form with blanks around a well-formed user name is refused, although
    the value that would be sent, trimmed, is well formed. *)
Example signup_refuses_padded_username :
  let f := SignupView.mkForm (units " ann_7") (units "ann@example.org")
             (units "Secret123") (units "Secret123") in
  SignupView.canSubmit f = true ∧
  valid (username (trim (SignupView.username f))) = true ∧
  SignupView.handleSubmit false (SignupView.mk f ∅ false) =
    (SignupView.mk f
       {["username" :=
           "Username can only contain letters, numbers, and underscores"]}
       false, []).
Proof. vm_compute. repeat split. Qed.
End Forms.


(** ** The session *)

Section Session.
Import AuthStore.

Lemma or_else_nonempty s d : d ≠ "" → or_else s d ≠ "".
Proof. unfold or_else. intros Hd. by case_bool_decide. Qed.

Lemma truthy_Some o : truthy o = true → ∃ tok, o = Some tok ∧ tok ≠ "".
Proof.
  destruct o as [tok|]; cbn; [|done]. case_bool_decide; [done|]. eauto.
Qed.

(** What [fetchUser] leaves: the user of an [ok] reply, or else a store that
    is untouched up to the storage and the requests, or logged out. *)
Lemma fetchUser_cases h s :
  (∃ u, h = Ok u ∧ truthy (stored s) = true ∧
     fetchUser h s = (Return (), does (Request "/auth/me") (set_user (Some u) s)))
  ∨
  (∃ err s', fetchUser h s = (Throw err, s') ∧
     (truthy (stored s) = false ∨ ∀ u, h ≠ Ok u) ∧
     ((user s' = user s ∧ token s' = token s ∧ error s' = error s) ∨
      (user s' = None ∧ token s' = None ∧ stored s' = None ∧
       error s' = None ∧ last (did s') = Some (Push "/login"))) ∧
     loading s' = loading s).
Proof.
  unfold fetchUser, authService_getCurrentUser.
  destruct (truthy (stored s)) eqn:Et; cbn [negb].
  - destruct h as [u|status detail|e].
    + left. exists u. destruct s; done.
    + right. destruct (status =? 401)%nat.
      * eexists _, _. split; [reflexivity|]. split; [by right|].
        split; [|by destruct s].
        right. cbn [message]. destruct s; cbn.
        by rewrite last_snoc.
      * eexists _, _. split; [reflexivity|]. split; [by right|].
        split; [|case_match; by destruct s].
        case_match; [right|left]; destruct s; cbn; [|done].
        by rewrite last_snoc.
    + right. eexists _, _. split; [reflexivity|]. split; [by right|].
      split; [|case_match; by destruct s].
      case_match; [right|left]; destruct s; cbn; [|done].
      by rewrite last_snoc.
  - right. eexists _, _. split; [reflexivity|]. split; [by left|].
    split; [|by destruct s]. left. by destruct s.
Qed.

(** X28 ([login], [signup], [fetchUser] of the auth store, with
    [authService.login], [authService.signup],
    [authService.getCurrentUser]): whatever the replies, [loading] is false
    when [login] or [signup] is over.  They return only when every request
    made had an [ok] reply, and then the store is authenticated, with the
    token of the log-in reply (not empty, also in the storage) and the user
    of [/auth/me]; when they throw, [error] holds a message that is not
    empty.  A log-in whose first request fails changes no other ref and makes
    no second request; a sign-up whose request fails makes no log-in
    request. *)
Theorem login_signup_outcome (h_signup : Http unit)
    (h_login : Http LoginResponse) (h_me : Http User) (s : t) :
  let after_login := login h_login h_me s in
  let after_signup := signup h_signup h_login h_me s in
  let authenticated (response : LoginResponse) (s' : t) :=
    h_login = Ok response ∧ (∃ u, h_me = Ok u ∧ user s' = Some u) ∧
    token s' = Some (access_token response) ∧
    stored s' = Some (access_token response) ∧
    access_token response ≠ "" ∧ error s' = None ∧
    isAuthenticated s' = true in
  let failed (s' : t) := ∃ m, error s' = Some m ∧ m ≠ "" in
  loading (snd after_login) = false ∧
  loading (snd after_signup) = false ∧
  match fst after_login with
  | Return response => authenticated response (snd after_login)
  | Throw _ =>
      failed (snd after_login) ∧
      ((∀ response, h_login ≠ Ok response) →
       user (snd after_login) = user s ∧ token (snd after_login) = token s ∧
       stored (snd after_login) = stored s ∧
       did (snd after_login) = did s ++ [Request "/auth/login"])
  end ∧
  match fst after_signup with
  | Return _ =>
      (∃ u, h_signup = Ok u) ∧
      ∃ response, authenticated response (snd after_signup)
  | Throw _ =>
      failed (snd after_signup) ∧
      ((∀ u, h_signup ≠ Ok u) →
       did (snd after_signup) = did s ++ [Request "/auth/signup"])
  end.
Proof.
  cbn zeta.
  assert (∀ s0,
    loading (snd (login h_login h_me s0)) = false ∧
    match fst (login h_login h_me s0) with
    | Return response =>
        h_login = Ok response ∧
        (∃ u, h_me = Ok u ∧ user (snd (login h_login h_me s0)) = Some u) ∧
        token (snd (login h_login h_me s0)) = Some (access_token response) ∧
        stored (snd (login h_login h_me s0)) = Some (access_token response) ∧
        access_token response ≠ "" ∧
        error (snd (login h_login h_me s0)) = None ∧
        isAuthenticated (snd (login h_login h_me s0)) = true
    | Throw _ =>
        (∃ m, error (snd (login h_login h_me s0)) = Some m ∧ m ≠ "") ∧
        ((∀ response, h_login ≠ Ok response) →
         user (snd (login h_login h_me s0)) = user s0 ∧
         token (snd (login h_login h_me s0)) = token s0 ∧
         stored (snd (login h_login h_me s0)) = stored s0 ∧
         did (snd (login h_login h_me s0)) = did s0 ++ [Request "/auth/login"])
    end) as Hlogin.
  { intros s0. unfold login, authService_login.
    destruct h_login as [response|status detail|e]; cbn -[fetchUser].
    - set (s1 := set_token _ _).
      destruct (fetchUser_cases h_me s1) as
        [(u & -> & Ht & ->)|(err & s' & -> & _ & _ & Hl)].
      + cbn. split; [done|]. split; [done|]. split; [eauto|].
        apply truthy_Some in Ht as (tok & Ht & Hne). cbn in Ht.
        injection Ht as <-. done.
      + cbn. split; [done|]. split; [|intros H; by destruct (H response)].
        eexists. split; [done|]. by apply or_else_nonempty.
    - split; [done|]. split; [|done].
      eexists. split; [done|]. by apply or_else_nonempty.
    - split; [done|]. split; [|done].
      eexists. split; [done|]. by apply or_else_nonempty. }
  destruct (Hlogin s) as [Hl1 Hl2]. split; [done|].
  assert (loading (snd (signup h_signup h_login h_me s)) = false ∧
    match fst (signup h_signup h_login h_me s) with
    | Return _ =>
        (∃ u, h_signup = Ok u) ∧
        ∃ response,
          h_login = Ok response ∧
          (∃ u, h_me = Ok u ∧
             user (snd (signup h_signup h_login h_me s)) = Some u) ∧
          token (snd (signup h_signup h_login h_me s))
            = Some (access_token response) ∧
          stored (snd (signup h_signup h_login h_me s))
            = Some (access_token response) ∧
          access_token response ≠ "" ∧
          error (snd (signup h_signup h_login h_me s)) = None ∧
          isAuthenticated (snd (signup h_signup h_login h_me s)) = true
    | Throw _ =>
        (∃ m, error (snd (signup h_signup h_login h_me s)) = Some m ∧ m ≠ "") ∧
        ((∀ u, h_signup ≠ Ok u) →
         did (snd (signup h_signup h_login h_me s))
           = did s ++ [Request "/auth/signup"])
    end) as [Hs1 Hs2]; [|done].
  unfold signup, authService_signup.
  destruct h_signup as [u|status detail|e]; cbn -[login].
  - set (s1 := does _ _).
    destruct (Hlogin s1) as [Hload Hrest].
    destruct (login h_login h_me s1) as [[response|err] s'] eqn:E;
      cbn in Hload, Hrest |- *.
    + split; [done|]. split; [eauto|]. exists response.
      destruct Hrest as (? & ? & ? & ? & ? & ? & ?). done.
    + split; [done|]. split; [|intros H; by destruct (H u)].
      eexists. split; [done|]. by apply or_else_nonempty.
  - split; [done|]. split; [|done].
    eexists. split; [done|]. by apply or_else_nonempty.
  - split; [done|]. split; [|done].
    eexists. split; [done|]. by apply or_else_nonempty.
Qed.

(** X29 ([initialize] of the auth store): with no token in the storage (or
    an empty one) it changes nothing and makes no request; otherwise either [/auth/me] answers with
    the user and the store is authenticated with the stored token, or the
    store ends logged out: no user, no token, none in the storage, and the
    last thing done is the navigation to [/login]. *)
Theorem initialize_outcome (h_me : Http User) (s : t) :
  let s' := initialize h_me s in
  (truthy (stored s) = false ∧ s' = s)
  ∨ (truthy (stored s) = true ∧
     ∃ u, h_me = Ok u ∧ user s' = Some u ∧ token s' = stored s ∧
       stored s' = stored s ∧ isAuthenticated s' = true ∧
       did s' = did s ++ [Request "/auth/me"])
  ∨ (truthy (stored s) = true ∧ (∀ u, h_me ≠ Ok u) ∧
     user s' = None ∧ token s' = None ∧ stored s' = None ∧
     error s' = None ∧ isAuthenticated s' = false ∧
     last (did s') = Some (Push "/login")).
Proof.
  cbn zeta. unfold initialize.
  destruct (truthy (stored s)) eqn:Et; [right|by left].
  set (s1 := set_token _ _).
  assert (truthy (stored s1) = true) as Et1 by by destruct s.
  destruct (fetchUser_cases h_me s1) as
    [(u & -> & _ & ->)|(err & s' & -> & [Hf|Hnot] & _ & _)].
  - left. split; [done|]. exists u. split; [done|].
    apply truthy_Some in Et as (tok & Et & _). subst s1.
    destruct s; cbn in *. rewrite Et. done.
  - congruence.
  - right. split; [done|]. split; [done|]. destruct s'; cbn.
    by rewrite last_snoc.
Qed.

(** X30 ([router.beforeEach], with the routes' [meta] and [initialize] of
    the auth store): the guard lets a navigation to [/] or [/game/:id]
    proceed exactly when the store is authenticated at that moment and sends
    it to the log-in page with the full path as [redirect] otherwise; it
    sends a navigation to [/login] or [/signup] home exactly when the store
    is authenticated.  It never sets the user, so with no user in the store
    a navigation to a protected route goes to the log-in page whatever token
    the storage holds: the session that [initialize] starts to restore is
    not waited for. *)
Theorem guard_decisions (to : RouteName) (fullPath : string) (s : t) :
  let next := fst (beforeEach to fullPath s) in
  let s' := snd (beforeEach to fullPath s) in
  user s' = user s ∧ stored s' = stored s ∧
  (requiresAuth to = true →
     next = (if isAuthenticated s' then Proceed else ToLogin fullPath)) ∧
  (requiresGuest to = true →
     next = (if isAuthenticated s' then ToHome else Proceed)) ∧
  (requiresAuth to = true ∨ requiresGuest to = true) ∧
  (user s = None → requiresAuth to = true → next = ToLogin fullPath) ∧
  (token s = None → truthy (stored s) = true →
     token s' = stored s ∧ did s' = did s ++ [Request "/auth/me"]).
Proof.
  cbn zeta. unfold beforeEach. cbn [fst snd].
  set (s1 := if negb (isAuthenticated s) && bool_decide (token s = None)
             then initialize_started s else s).
  assert (user s1 = user s ∧ stored s1 = stored s) as [Hu Hs].
  { unfold s1, initialize_started.
    repeat case_match; by destruct s. }
  split; [done|]. split; [done|]. split; [|split; [|split; [|split]]].
  - intros Ha. destruct to; try discriminate; cbn;
      by destruct (isAuthenticated s1).
  - intros Hg. destruct to; try discriminate; cbn;
      by destruct (isAuthenticated s1).
  - destruct to; cbn; auto.
  - intros Hnone ->. cbn.
    assert (isAuthenticated s1 = false) as ->; [|by cbn].
    unfold isAuthenticated. rewrite Hu, Hnone.
    apply andb_false_iff. right. apply bool_decide_eq_false_2.
    intros H. by apply H.
  - intros Ht Hst. unfold s1, isAuthenticated, initialize_started.
    rewrite Ht, Hst. cbn. done.
Qed.

(** A reload of the home page with a session in the storage *)
Example reload_with_stored_session :
  let s := initial (Some "token-1") in
  fst (beforeEach home_route "/" s) = ToLogin "/" ∧
  isAuthenticated (initialize (Ok (mkUser "u1" "ann")) s) = true ∧
  fst (beforeEach home_route "/" (initialize (Ok (mkUser "u1" "ann")) s))
    = Proceed.
Proof. vm_compute. repeat split. Qed.
End Session.
